(** * Pump-signal scanner: signal-evaluation engine

    A shallow embedding of [app.py]: the indicator library (EMA, Bollinger
    bands, RSI, OBV), the five rules, the guard, the aggregation loop of
    [scan_once] and the outer loop of [main], followed by the properties
    established about them.

    Numbers.  The program computes on IEEE doubles inside pandas series.
    They are embedded as exact rationals extended with NaN and the two
    infinities ([fnum]); arithmetic is exact on finite values and follows
    the IEEE rules on the special values.  Rounding of a finite result
    and overflow of a finite operation to an infinity are not modelled.
    Signed zeros are not distinguished: a division of a non-zero number
    by zero takes the sign of the numerator.

    Exceptions.  Code that can raise returns a [result]; [try]/[except]
    is [try_except].

    Effects.  A scan cycle is a function of the outside world met during
    the cycle ([World]) and returns the list of its events together with
    its outcome; [main] is the trace of a finite prefix of its loop.

    The square root of [rolling(n).std()] and Python's [float]/[int] on
    strings are parameters of the definitions that use them. *)

From Stdlib Require Import Ascii String.
From Stdlib Require Import QArith ZArith List Bool Lia Lqa Arith.
From Stdlib Require Import Sorted Permutation.
Import ListNotations.

Local Open Scope Q_scope.

(* ------------------------------------------------------------------ *)
(** ** Floating-point values *)

Inductive fnum : Type :=
| NaN
| PInf
| NInf
| Fin (q : Q).

Definition Qltb (a b : Q) : bool := negb (Qle_bool b a).

Definition isnan (x : fnum) : bool :=
  match x with NaN => true | _ => false end.

Definition fneg (x : fnum) : fnum :=
  match x with
  | NaN => NaN
  | PInf => NInf
  | NInf => PInf
  | Fin q => Fin (- q)
  end.

Definition fadd (x y : fnum) : fnum :=
  match x, y with
  | NaN, _ | _, NaN => NaN
  | PInf, NInf | NInf, PInf => NaN
  | PInf, _ | _, PInf => PInf
  | NInf, _ | _, NInf => NInf
  | Fin a, Fin b => Fin (a + b)
  end.

Definition fsub (x y : fnum) : fnum := fadd x (fneg y).

(** Sign of an infinity scaled by a finite factor: zero gives NaN. *)
Definition inf_scaled (positive : bool) (q : Q) : fnum :=
  if Qeq_bool q 0 then NaN
  else if xorb positive (Qltb q 0) then PInf else NInf.

Definition fmul (x y : fnum) : fnum :=
  match x, y with
  | NaN, _ | _, NaN => NaN
  | PInf, PInf | NInf, NInf => PInf
  | PInf, NInf | NInf, PInf => NInf
  | PInf, Fin q | Fin q, PInf => inf_scaled true q
  | NInf, Fin q | Fin q, NInf => inf_scaled false q
  | Fin a, Fin b => Fin (a * b)
  end.

Definition fdiv (x y : fnum) : fnum :=
  match x, y with
  | NaN, _ | _, NaN => NaN
  | (PInf | NInf), (PInf | NInf) => NaN
  | PInf, Fin q => if Qltb q 0 then NInf else PInf
  | NInf, Fin q => if Qltb q 0 then PInf else NInf
  | Fin _, (PInf | NInf) => Fin 0
  | Fin a, Fin b =>
      if Qeq_bool b 0 then
        (if Qeq_bool a 0 then NaN else if Qltb a 0 then NInf else PInf)
      else Fin (a / b)
  end.

(** Comparisons: every comparison with NaN is false. *)
Definition flt (x y : fnum) : bool :=
  match x, y with
  | NaN, _ | _, NaN => false
  | _, NInf => false
  | NInf, _ => true
  | PInf, _ => false
  | _, PInf => true
  | Fin a, Fin b => Qltb a b
  end.

Definition fle (x y : fnum) : bool :=
  match x, y with
  | NaN, _ | _, NaN => false
  | NInf, _ => true
  | _, PInf => true
  | _, NInf => false
  | PInf, _ => false
  | Fin a, Fin b => Qle_bool a b
  end.

Definition fgt (x y : fnum) : bool := flt y x.
Definition fge (x y : fnum) : bool := fle y x.

(** Python truthiness of a float: only zero is falsy (NaN is truthy). *)
Definition truthy (x : fnum) : bool :=
  match x with
  | Fin q => negb (Qeq_bool q 0)
  | _ => true
  end.

(** [a or b] on floats. *)
Definition for_else (x y : fnum) : fnum := if truthy x then x else y.

Definition fillna0 (x : fnum) : fnum :=
  match x with NaN => Fin 0 | _ => x end.

(** [clip(lower=0)]: NaN stays NaN. *)
Definition clip_lower0 (x : fnum) : fnum :=
  match x with
  | NaN => NaN
  | PInf => PInf
  | NInf => Fin 0
  | Fin q => if Qltb q 0 then Fin 0 else Fin q
  end.

(** [np.sign]. *)
Definition fsign (x : fnum) : fnum :=
  match x with
  | NaN => NaN
  | PInf => Fin 1
  | NInf => Fin (-1)
  | Fin q => if Qltb q 0 then Fin (-1) else if Qeq_bool q 0 then Fin 0 else Fin 1
  end.

(** Equality of floats as values: rationals are compared by [Qeq]. *)
Definition feq (x y : fnum) : Prop :=
  match x, y with
  | NaN, NaN | PInf, PInf | NInf, NInf => True
  | Fin a, Fin b => a == b
  | _, _ => False
  end.

(* ------------------------------------------------------------------ *)
(** ** Exceptions *)

Inductive exn : Type :=
| IndexError
| AttributeError
| TypeError
| ValueError
| OverflowError
| KeyError
| RequestError.

Inductive result (A : Type) : Type :=
| Ok (a : A)
| Raise (e : exn).
Arguments Ok {A} a.
Arguments Raise {A} e.

Definition rbind {A B} (m : result A) (k : A -> result B) : result B :=
  match m with
  | Ok a => k a
  | Raise e => Raise e
  end.

Notation "x <- m ;; k" := (rbind m (fun x => k))
  (at level 61, m at next level, right associativity).

(** [try: m except Exception: h]. *)
Definition try_except {A} (m : result A) (h : result A) : result A :=
  match m with
  | Ok a => Ok a
  | Raise _ => h
  end.

(* ------------------------------------------------------------------ *)
(** ** pandas series *)

Definition Series := list fnum.

(** [s.iloc[-1]] and [s.iloc[-2]]: IndexError when out of bounds. *)
Definition iloc_last (s : Series) : result fnum :=
  match rev s with
  | x :: _ => Ok x
  | [] => Raise IndexError
  end.

Definition iloc_prev (s : Series) : result fnum :=
  match rev s with
  | _ :: x :: _ => Ok x
  | _ => Raise IndexError
  end.

Definition smap2 (f : fnum -> fnum -> fnum) (a b : Series) : Series :=
  map (fun p => f (fst p) (snd p)) (combine a b).

(** [s.shift(k)]: [k] leading NaN, the tail dropped. *)
Definition shift (k : nat) (s : Series) : Series :=
  firstn (length s) (repeat NaN k ++ s).

(** [s.diff()]. *)
Definition diff (s : Series) : Series := smap2 fsub s (shift 1 s).

(** [s.pct_change(k)] as [s / s.shift(k) - 1].  (pandas pads missing
    values before dividing; the scanner applies it to a broadcast
    column, which padding leaves unchanged.) *)
Definition pct_change (k : nat) (s : Series) : Series :=
  map (fun x => fsub x (Fin 1)) (smap2 fdiv s (shift k s)).

(** [s.cumsum()] on a series without NaN. *)
Fixpoint cumsum_from (acc : fnum) (s : Series) : Series :=
  match s with
  | [] => []
  | x :: t => let acc' := fadd acc x in acc' :: cumsum_from acc' t
  end.

Definition cumsum (s : Series) : Series :=
  match s with
  | [] => []
  | x :: t => x :: cumsum_from x t
  end.

(** Rolling windows.  pandas replaces infinities by NaN before any
    window computation, and a fixed window of size [n] needs [n] valid
    observations: the window ending at [i] is usable exactly when it
    has [n] entries and all of them are finite. *)
Fixpoint all_finite (w : list fnum) : option (list Q) :=
  match w with
  | [] => Some []
  | Fin q :: t =>
      match all_finite t with
      | Some qs => Some (q :: qs)
      | None => None
      end
  | _ :: _ => None
  end.

Definition window (n : nat) (s : Series) (i : nat) : option (list Q) :=
  if (i + 1 <? n)%nat then None
  else all_finite (firstn n (skipn (i + 1 - n) s)).

Definition rolling (n : nat) (agg : list Q -> fnum) (s : Series) : Series :=
  map (fun i => match window n s i with
                | Some w => agg w
                | None => NaN
                end)
      (seq 0 (length s)).

Definition Qsum (w : list Q) : Q := fold_right Qplus 0 w.

Definition Qmean (w : list Q) : Q := Qsum w / inject_Z (Z.of_nat (length w)).

Definition rolling_mean (n : nat) (s : Series) : Series :=
  rolling n (fun w => Fin (Qmean w)) s.

Definition Qmax_list (w : list Q) : fnum :=
  match w with
  | [] => NaN
  | x :: t => Fin (fold_left (fun m y => if Qltb m y then y else m) t x)
  end.

Definition rolling_max (n : nat) (s : Series) : Series :=
  rolling n Qmax_list s.

(** Sum of squared deviations from the mean, and the variance with
    [ddof] delta degrees of freedom: pandas' [rolling(n).std()] uses
    [ddof = 1]. *)
Definition Qssd (w : list Q) : Q :=
  let m := Qmean w in Qsum (map (fun x => (x - m) * (x - m)) w).

Definition Qvar (ddof : nat) (w : list Q) : Q :=
  Qssd w / inject_Z (Z.of_nat (length w - ddof)).

(** [rolling(n).count()] at position [i]: the non-NaN entries among the
    last [n]; infinities are counted. *)
Definition count_valid (w : list fnum) : nat :=
  length (filter (fun x => negb (isnan x)) w).

Definition rolling_count_at (n : nat) (s : Series) (i : nat) : nat :=
  count_valid (firstn (Nat.min n (i + 1)) (skipn (i + 1 - n) s)).

(** [np.nanpercentile(a, q)] with the default linear interpolation:
    the virtual index [(n - 1) * q / 100] into the sorted values. *)
Fixpoint insert_sorted (x : Q) (l : list Q) : list Q :=
  match l with
  | [] => [x]
  | y :: t => if Qle_bool x y then x :: l else y :: insert_sorted x t
  end.

Definition sort (l : list Q) : list Q := fold_right insert_sorted [] l.

Definition nanpercentile (a : list Q) (q : nat) : fnum :=
  match sort a with
  | [] => NaN
  | s =>
      let n := length s in
      let lo := ((n - 1) * q / 100)%nat in
      let hi := Nat.min (lo + 1) (n - 1) in
      let g := inject_Z (Z.of_nat (((n - 1) * q) mod 100)) / 100 in
      let x := nth lo s 0 in
      let y := nth hi s 0 in
      Fin (x + (y - x) * g)
  end.

(** [s.dropna()] on a series whose defined entries are finite. *)
Fixpoint dropna (s : Series) : list Q :=
  match s with
  | [] => []
  | Fin q :: t => q :: dropna t
  | _ :: t => dropna t
  end.

(* ------------------------------------------------------------------ *)
(** ** Configuration *)

Definition PAIRS_PER_SCAN : nat := 20.
Definition LOOKBACK : nat := 120.
Definition MIN_ABS_VOLUME_USD : Q := 3000.
Definition MIN_LIQ_USD : Q := 30000.
Definition ROC_WINDOW : nat := 5.
Definition VOL_MULT_CONFIRM : Q := 3 # 2.
Definition MIN_SIGNALS_REQUIRED : nat := 2.

(* ------------------------------------------------------------------ *)
(** ** Indicator library *)

Definition finite_part (x : fnum) : option Q :=
  match x with Fin q => Some q | _ => None end.

Definition of_option (o : option Q) : fnum :=
  match o with Some q => Fin q | None => NaN end.

(** [series.ewm(span=n, adjust=False).mean()].  The running state is the
    weighted average so far and the weight of the past; a missing
    observation carries the average forward and lets the past decay.
    The weight of a new observation is [alpha], except at span 3
    ([alpha = 1/2], pandas' [com == 1]), where pandas takes the
    complement of the decayed weight of the past; the two differ after
    a missing observation only. *)
Fixpoint ewm_loop (alpha : Q) (weighted : option Q) (old_wt : Q)
                  (xs : Series) : Series :=
  match xs with
  | [] => []
  | cur :: t =>
      let st :=
        match weighted with
        | Some w =>
            let o := old_wt * (1 - alpha) in
            match finite_part cur with
            | Some c =>
                let new_wt := if Qeq_bool alpha (1 # 2) then 1 - o else alpha in
                (Some ((o * w + new_wt * c) / (o + new_wt)), 1)
            | None => (Some w, o)
            end
        | None => (finite_part cur, old_wt)
        end in
      of_option (fst st) :: ewm_loop alpha (fst st) (snd st) t
  end.

Definition ema (series : Series) (n : nat) : Series :=
  let alpha := 2 / (inject_Z (Z.of_nat n) + 1) in
  match series with
  | [] => []
  | x :: t => of_option (finite_part x) :: ewm_loop alpha (finite_part x) 1 t
  end.

Section WithSqrt.

(** The square root applied by [rolling(n).std()] to the window
    variance. *)
Variable sqrt : Q -> Q.

(** [rolling(n).std()]: square root of the variance with one delta
    degree of freedom; undefined on a window of a single value. *)
Definition std_of (w : list Q) : fnum :=
  if (length w <=? 1)%nat then NaN else Fin (sqrt (Qvar 1 w)).

Definition rolling_std (n : nat) (s : Series) : Series :=
  rolling n std_of s.

Definition bollinger (series : Series) (n : nat) (k : Q)
  : Series * Series * Series :=
  let ma := rolling_mean n series in
  let sd := rolling_std n series in
  (ma,
   smap2 fadd ma (map (fmul (Fin k)) sd),
   smap2 fsub ma (map (fmul (Fin k)) sd)).

End WithSqrt.

Definition replace_zero (y : Q) (x : fnum) : fnum :=
  match x with
  | Fin q => if Qeq_bool q 0 then Fin y else x
  | _ => x
  end.

(** The two rolling averages of [rsi]; the average loss is taken after
    [.replace(0, 1e-9)]. *)
Definition rsi_avg_gain (series : Series) (n : nat) : Series :=
  rolling_mean n (map clip_lower0 (diff series)).

Definition rsi_avg_loss (series : Series) (n : nat) : Series :=
  map (replace_zero (1 # 1000000000))
      (rolling_mean n (map clip_lower0 (map fneg (diff series)))).

Definition rsi (series : Series) (n : nat) : Series :=
  let rs := smap2 fdiv (rsi_avg_gain series n) (rsi_avg_loss series n) in
  map (fun r => fsub (Fin 100) (fdiv (Fin 100) (fadd (Fin 1) r))) rs.

Definition obv (close volume : Series) : Series :=
  let sign := map fsign (map fillna0 (diff close)) in
  cumsum (map fillna0 (smap2 fmul sign volume)).

(* ------------------------------------------------------------------ *)
(** ** Pair descriptors and data frames *)

(** A pair descriptor is the JSON object returned by the candidate
    source: its fields are scalars or one-level objects ([baseToken],
    [liquidity]).  A binding listed later overrides an earlier one, as
    in a parsed JSON object.  A JSON number is read as a float: [SNum]
    is a finite one, [SInf] a literal too large for a double (such as
    [1e999]), which is read as an infinity of its sign. *)
Inductive scalar : Type :=
| SNull
| SNum (q : Q)
| SInf (negative : bool)
| SStr (s : string).

Definition inf_of (negative : bool) : fnum :=
  if negative then NInf else PInf.

Inductive value : Type :=
| VScalar (v : scalar)
| VDict (d : list (string * scalar)).

Definition Pair := list (string * value).

Definition dict_get {A} (d : list (string * A)) (k : string) : option A :=
  fold_left (fun acc kv => if String.eqb k (fst kv) then Some (snd kv) else acc)
            d None.

(** [d.get(k)] and [d.get(k, default)]. *)
Definition get {A} (d : list (string * A)) (k : string) (default : A) : A :=
  match dict_get d k with
  | Some v => v
  | None => default
  end.

Definition None_ : value := VScalar SNull.

Definition scalar_truthy (v : scalar) : bool :=
  match v with
  | SNull => false
  | SNum q => negb (Qeq_bool q 0)
  | SInf _ => true
  | SStr s => negb (String.eqb s "")
  end.

Definition value_truthy (v : value) : bool :=
  match v with
  | VScalar s => scalar_truthy s
  | VDict d => match d with [] => false | _ => true end
  end.

(** [a or b] on scalars. *)
Definition scalar_or (a b : scalar) : scalar :=
  if scalar_truthy a then a else b.

(** [x.get(k)] on a value that need not be a dict. *)
Definition attr_get (x : value) (k : string) : result scalar :=
  match x with
  | VDict d => Ok (get d k SNull)
  | VScalar _ => Raise AttributeError
  end.

Record candle : Type := mk_candle {
  time : fnum;
  open : fnum;
  high : fnum;
  low : fnum;
  close : fnum;
  volume : fnum
}.

(** A cell of the broadcast liquidity column: whatever scalar the
    snapshot carried. *)
Inductive cell : Type :=
| CNum (x : fnum)
| CStr (s : string).

(** The candle frame with the three columns enrichment adds; [None] is
    a column that is not in the frame. *)
Record DataFrame : Type := mk_df {
  candles : list candle;
  liquidityUsd : option (list cell);
  volumeUsd : option Series;
  mcap : option Series
}.

Definition cell_of_scalar (v : scalar) : cell :=
  match v with
  | SNum q => CNum (Fin q)
  | SInf b => CNum (inf_of b)
  | SStr s => CStr s
  | SNull => CNum NaN
  end.

Definition df_of_candles (cs : list candle) : DataFrame :=
  mk_df cs None None None.

Definition len (df : DataFrame) : nat := length (candles df).
Definition col_close (df : DataFrame) : Series := map close (candles df).
Definition col_volume (df : DataFrame) : Series := map volume (candles df).

Definition cell_last (c : list cell) : result cell :=
  match rev c with
  | x :: _ => Ok x
  | [] => Raise IndexError
  end.

(** [all(isna)]. *)
Definition isna_all (s : Series) : bool := forallb isnan s.

Section Scanner.

Variable sqrt : Q -> Q.

(** Python's [float] and [int] on a string: [None] is a ValueError. *)
Variable float_of_string : string -> option fnum.
Variable int_of_string : string -> option Z.

(** [float(x)]. *)
Definition float (x : value) : result fnum :=
  match x with
  | VScalar (SNum q) => Ok (Fin q)
  | VScalar (SInf b) => Ok (inf_of b)
  | VScalar (SStr s) =>
      match float_of_string s with
      | Some f => Ok f
      | None => Raise ValueError
      end
  | VScalar SNull => Raise TypeError
  | VDict _ => Raise TypeError
  end.

Definition enrich_with_snapshot (df : DataFrame) (pair : Pair)
  : result DataFrame :=
  let liq := get pair "liquidity" (VDict []) in
  let quote := get pair "priceUsd" None_ in
  usd <- attr_get liq "usd" ;;
  base <- attr_get liq "base" ;;
  let liq_usd := scalar_or usd (scalar_or base (SNum 0)) in
  let px :=
    match try_except (if value_truthy quote then float quote else Ok NaN)
                     (Ok NaN) with
    | Ok x => x
    | Raise _ => NaN
    end in
  let fdv := get pair "fdv" None_ in
  let marketCap := get pair "marketCap" None_ in
  let m :=
    match try_except
            (if value_truthy fdv then float fdv
             else if value_truthy marketCap then float marketCap
             else Ok NaN)
            (Ok NaN) with
    | Ok x => x
    | Raise _ => NaN
    end in
  Ok (mk_df (candles df)
            (Some (repeat (cell_of_scalar liq_usd) (len df)))
            (Some (map (fun v => fmul v px) (col_volume df)))
            (Some (repeat m (len df)))).

(* ------------------------------------------------------------------ *)
(** ** Rules *)

Definition metrics := list (string * fnum).

Definition column {A} (c : option A) : result A :=
  match c with
  | Some s => Ok s
  | None => Raise KeyError
  end.

Definition rule_result := result (bool * metrics).

(** The three quantities [rule_ema_cross] combines. *)
Definition ema_cross_flag (df : DataFrame) : result bool :=
  let c := col_close df in
  let e9 := ema c 9 in
  let e21 := ema c 21 in
  a2 <- iloc_prev e9 ;;
  b2 <- iloc_prev e21 ;;
  a1 <- iloc_last e9 ;;
  b1 <- iloc_last e21 ;;
  Ok (flt a2 b2 && fgt a1 b1).

Definition ema_vavg (v : Series) : result fnum :=
  m <- iloc_last (rolling_mean 20 v) ;;
  Ok (for_else m (Fin 1)).

Definition rule_ema_cross (df : DataFrame) : rule_result :=
  vu <- column (volumeUsd df) ;;
  let v := map fillna0 vu in
  cross <- ema_cross_flag df ;;
  vavg <- ema_vavg v ;;
  vlast <- iloc_last v ;;
  let vol_ok := fgt vlast (fmul (Fin VOL_MULT_CONFIRM) vavg) in
  Ok (cross && vol_ok, [("vol_mult"%string, fdiv vlast vavg)]).

(** The bandwidth series and the squeeze test of [rule_boll_breakout]. *)
Definition bandwidth (c : Series) : Series :=
  let '(ma, up, dn) := bollinger sqrt c 20 2 in
  smap2 fdiv (smap2 fsub up dn) ma.

Definition last_or_zero (w : list Q) : fnum := Fin (last w 0).

Definition pct20_of (bw : Series) : fnum :=
  if (30 <=? rolling_count_at 30 bw (length bw - 1))%nat
  then nanpercentile (dropna (rolling 30 last_or_zero bw)) 20
  else NaN.

Definition squeeze_of (bw : Series) : result bool :=
  cur <- iloc_last bw ;;
  let pct20 := pct20_of bw in
  Ok (negb (isnan pct20) && fle cur pct20).

Definition rule_boll_breakout (df : DataFrame) : rule_result :=
  let c := col_close df in
  let '(ma, up, dn) := bollinger sqrt c 20 2 in
  squeeze <- squeeze_of (bandwidth c) ;;
  clast <- iloc_last c ;;
  ulast <- iloc_last up ;;
  let breakout := fgt clast (if negb (isnan ulast) then ulast else PInf) in
  Ok (squeeze && breakout, []).

Definition rule_rsi_reclaim (df : DataFrame) : rule_result :=
  r <- iloc_last (rsi (col_close df) 14) ;;
  Ok (fgt r (Fin 50), [("rsi"%string, r)]).

Definition rule_obv_leads (df : DataFrame) : rule_result :=
  let c := col_close df in
  let v := col_volume df in
  let o := obv c v in
  clast <- iloc_last c ;;
  cmax <- iloc_prev (rolling_max 50 c) ;;
  let price_hh := fgt clast cmax in
  olast <- iloc_last o ;;
  omax <- iloc_prev (rolling_max 50 o) ;;
  let obv_hh := fgt olast omax in
  Ok (obv_hh && negb price_hh, []).

Definition rule_mcap_roc (df : DataFrame) : rule_result :=
  match mcap df with
  | None => Ok (false, [])
  | Some m =>
      if isna_all m then Ok (false, [])
      else
        r <- iloc_last (pct_change ROC_WINDOW m) ;;
        let roc := fmul r (Fin 100) in
        Ok (fgt roc (Fin 5), [("roc%"%string, roc)])
  end.

(* ------------------------------------------------------------------ *)
(** ** Guard *)

Definition cell_ge (c : cell) (q : Q) : result bool :=
  match c with
  | CNum x => Ok (fge x (Fin q))
  | CStr _ => Raise TypeError
  end.

Definition guards (df : DataFrame) : result bool :=
  let vcol := match volumeUsd df with
              | Some s => s
              | None => col_volume df
              end in
  vavg <- iloc_last (rolling_mean 20 vcol) ;;
  let vol_ok := fge vavg (Fin MIN_ABS_VOLUME_USD) in
  liq_ok <-
    match liquidityUsd df with
    | None => Ok false
    | Some l => x <- cell_last l ;; cell_ge x MIN_LIQ_USD
    end ;;
  Ok (vol_ok && liq_ok).

(* ------------------------------------------------------------------ *)
(** ** Scan driver *)

(** The values interpolated into the alert message, before they are
    formatted as text. *)
Record Alert : Type := mk_alert {
  sym : scalar;
  hits : list string;
  price : fnum;
  vol20avg : fnum;
  liq : Z;
  roc : option fnum
}.

(** What a cycle does to the outside: candle requests, alerts (printed
    and sent), and in [main] the logged loop error and the sleep. *)
Inductive event : Type :=
| Fetch (addr : value)
| Emit (a : Alert)
| LoopError (e : exn)
| Sleep.

(** The outside world during one cycle: the answer of the candidate
    source (already sorted newest first) and, per pair address, the
    status code and candle list of the series source.  [Raise] is a
    failed request or, on status 200, a body that cannot be read
    ([read_candles] below gives it from the response). *)
Record World : Type := mk_world {
  get_new_solana_pairs : result (list Pair);
  http_candles : value -> result (nat * list candle)
}.

Definition lastn {A} (n : nat) (l : list A) : list A :=
  skipn (length l - n) l.

Definition get_candles (w : World) (pair_address : value) : result DataFrame :=
  r <- http_candles w pair_address ;;
  if negb (fst r =? 200)%nat then Ok (df_of_candles [])
  else match snd r with
       | [] => Ok (df_of_candles [])
       | cs => Ok (df_of_candles (lastn LOOKBACK cs))
       end.

Definition rule := (string * (DataFrame -> rule_result))%type.

Definition RULES : list rule :=
  [ ("rule_ema_cross"%string, rule_ema_cross);
    ("rule_boll_breakout"%string, rule_boll_breakout);
    ("rule_rsi_reclaim"%string, rule_rsi_reclaim);
    ("rule_obv_leads"%string, rule_obv_leads);
    ("rule_mcap_roc"%string, rule_mcap_roc) ].

(** The body of the [for f in (...)] loop, threading [hits]. *)
Fixpoint run_rules (rules : list rule) (df : DataFrame) (hits : list string)
  : result (list string) :=
  match rules with
  | [] => Ok hits
  | f :: rest =>
      r <- try_except (snd f df) (Ok (false, [])) ;;
      run_rules rest df (if fst r then hits ++ [fst f] else hits)
  end.

(** [int(x)]: truncation toward zero; NaN and the infinities raise. *)
Definition int (c : cell) : result Z :=
  match c with
  | CNum (Fin q) => Ok (Z.quot (Qnum q) (Zpos (Qden q)))
  | CNum NaN => Raise ValueError
  | CNum _ => Raise OverflowError
  | CStr s =>
      match int_of_string s with
      | Some z => Ok z
      | None => Raise ValueError
      end
  end.

Definition make_alert (s : scalar) (df : DataFrame) (hs : list string)
  : result Alert :=
  p <- iloc_last (col_close df) ;;
  vu <- column (volumeUsd df) ;;
  vavg <- iloc_last (rolling_mean 20 vu) ;;
  lq <- column (liquidityUsd df) ;;
  x <- cell_last lq ;;
  l <- int x ;;
  m <- column (mcap df) ;;
  r <- (if isna_all m then Ok None
        else pc <- iloc_last (pct_change ROC_WINDOW m) ;;
             Ok (Some (fmul pc (Fin 100)))) ;;
  Ok (mk_alert s hs p vavg l r).

(** The aggregation step on an admitted frame: run the rules, then
    build the alert when enough of them passed. *)
Definition aggregate (s : scalar) (df : DataFrame) : result (option Alert) :=
  hs <- run_rules RULES df [] ;;
  if (MIN_SIGNALS_REQUIRED <=? length hs)%nat
  then a <- make_alert s df hs ;; Ok (Some a)
  else Ok None.

(** Everything [scan_once] does with a fetched frame of at least 60
    bars: enrichment, guard, aggregation. *)
Definition evaluate (s : scalar) (df : DataFrame) (pair : Pair)
  : result (option Alert) :=
  df' <- enrich_with_snapshot df pair ;;
  g <- guards df' ;;
  if g then aggregate s df' else Ok None.

Definition value_or (a b : value) : value :=
  if value_truthy a then a else b.

Definition symbol_of (pair : Pair) : result scalar :=
  let bt := get pair "baseToken" (VDict []) in
  s <- attr_get bt "symbol" ;;
  n <- attr_get bt "name" ;;
  Ok (scalar_or s (scalar_or n (SStr "?"))).

(** One iteration of the loop over pairs: its events and whether it
    completed or raised. *)
Definition scan_pair (w : World) (pair : Pair) : list event * result unit :=
  let addr := value_or (get pair "pairAddress" None_) (get pair "address" None_) in
  match symbol_of pair with
  | Raise e => ([], Raise e)
  | Ok s =>
      if negb (value_truthy addr) then ([], Ok tt)
      else
        match get_candles w addr with
        | Raise e => ([Fetch addr], Raise e)
        | Ok df =>
            if (len df <? 60)%nat then ([Fetch addr], Ok tt)
            else
              match evaluate s df pair with
              | Raise e => ([Fetch addr], Raise e)
              | Ok (Some a) => ([Fetch addr; Emit a], Ok tt)
              | Ok None => ([Fetch addr], Ok tt)
              end
        end
  end.

Fixpoint scan_pairs (w : World) (pairs : list Pair) : list event * result unit :=
  match pairs with
  | [] => ([], Ok tt)
  | p :: rest =>
      match scan_pair w p with
      | (ev, Raise e) => (ev, Raise e)
      | (ev, Ok _) =>
          let '(ev', r) := scan_pairs w rest in (ev ++ ev', r)
      end
  end.

Definition scan_once (w : World) : list event * result unit :=
  match get_new_solana_pairs w with
  | Raise e => ([], Raise e)
  | Ok [] => ([], Ok tt)
  | Ok pairs => scan_pairs w (firstn PAIRS_PER_SCAN pairs)
  end.

(** [main]'s loop does not end; [main cycles] is its trace over the
    worlds met by its first [length cycles] iterations. *)
Fixpoint main (cycles : list World) : list event :=
  match cycles with
  | [] => []
  | w :: rest =>
      let '(ev, r) := scan_once w in
      ev ++ match r with
            | Raise e => [LoopError e]
            | Ok _ => []
            end ++ [Sleep] ++ main rest
  end.

End Scanner.

(* ------------------------------------------------------------------ *)
(** ** Concrete instances and sample inputs

    The definitions above are parametric in the square root and in
    Python's string conversions.  The instances below are used to run
    them on sample inputs. *)

(** A square root on rationals: exact on the squares of rationals,
    rounded down to nine decimal places otherwise, zero on negative
    numbers. *)
Definition sqrt9 (q : Q) : Q :=
  let r := Qred q in
  let s := (10 ^ 9)%Z in
  Z.sqrt (Qnum r * Zpos (Qden r) * s * s) # (Qden r * Z.to_pos s).

(** Decimal literals [digits], [digits.digits] with an optional minus
    sign; Python accepts more forms, none of which the samples use. *)
Definition digit_of (c : Ascii.ascii) : option Z :=
  let n := Ascii.nat_of_ascii c in
  if ((48 <=? n) && (n <=? 57))%nat then Some (Z.of_nat (n - 48)) else None.

(** Reads digits up to an optional point: value so far, number of
    digits after the point. *)
Fixpoint read_decimal (s : string) (acc : Z) (seen_point : bool) (frac : nat)
  : option (Z * nat) :=
  match s with
  | EmptyString => Some (acc, frac)
  | String c t =>
      if Ascii.eqb c "."%char then
        (if seen_point then None else read_decimal t acc true frac)
      else
        match digit_of c with
        | Some d =>
            read_decimal t (10 * acc + d)%Z seen_point
                         (if seen_point then S frac else frac)
        | None => None
        end
  end.

Definition has_digit (s : string) : bool :=
  existsb (fun c => match digit_of c with Some _ => true | None => false end)
          (list_ascii_of_string s).

Definition decimal_of_string (s : string) : option fnum :=
  let '(neg, body) :=
    match s with
    | String c t => if Ascii.eqb c "-"%char then (true, t) else (false, s)
    | EmptyString => (false, s)
    end in
  if negb (has_digit body) then None
  else
    match read_decimal body 0 false 0 with
    | Some (n, k) =>
        let q := n # Z.to_pos (10 ^ Z.of_nat k) in
        Some (Fin (if neg then - q else q))
    | None => None
    end.

Definition integer_of_string (s : string) : option Z :=
  match decimal_of_string s with
  | Some (Fin q) => if (Qden q =? 1)%positive then Some (Qnum q) else None
  | _ => None
  end.

Definition bar (c v : Q) : candle :=
  mk_candle (Fin 0) (Fin c) (Fin c) (Fin c) (Fin c) (Fin v).

Definition flat_bars (n : nat) (c v : Q) : list candle := repeat (bar c v) n.

(** A healthy snapshot: price 1 USD, liquidity 50000 USD, FDV 1e6. *)
Definition good_pair : Pair :=
  [ ("pairAddress"%string, VScalar (SStr "A"));
    ("baseToken"%string, VDict [("symbol"%string, SStr "TKN")]);
    ("priceUsd"%string, VScalar (SStr "1.0"));
    ("liquidity"%string, VDict [("usd"%string, SNum 50000)]);
    ("fdv"%string, VScalar (SNum 1000000)) ].

(** Sixty bars at 100 with a single bar at 110 (index 39) and a last
    bar at 101; volume 5000 per bar. *)
Definition spike_bars : list candle :=
  flat_bars 39 100 5000 ++ [bar 110 5000] ++ flat_bars 19 100 5000
  ++ [bar 101 5000].

(** Sixty bars at 100 with a last bar at 101. *)
Definition uptick_bars : list candle :=
  flat_bars 59 100 5000 ++ [bar 101 5000].

(** The frame enrichment returns for a candle list and a snapshot,
    with [decimal_of_string] for [float]. *)
Definition enriched (bars : list candle) (pair : Pair) : DataFrame :=
  match enrich_with_snapshot decimal_of_string (df_of_candles bars) pair with
  | Ok df => df
  | Raise _ => df_of_candles []
  end.

(** [good_pair] with another liquidity figure. *)
Definition pair_with_liquidity (usd : Q) : Pair :=
  [ ("pairAddress"%string, VScalar (SStr "A"));
    ("baseToken"%string, VDict [("symbol"%string, SStr "TKN")]);
    ("priceUsd"%string, VScalar (SStr "1.0"));
    ("liquidity"%string, VDict [("usd"%string, SNum usd)]);
    ("fdv"%string, VScalar (SNum 1000000)) ].

(** A snapshot without a USD price. *)
Definition no_price_pair : Pair :=
  [ ("pairAddress"%string, VScalar (SStr "A"));
    ("baseToken"%string, VDict [("symbol"%string, SStr "TKN")]);
    ("liquidity"%string, VDict [("usd"%string, SNum 50000)]) ].

(** Sixty bars at 100 without any traded volume. *)
Definition idle_bars : list candle := flat_bars 60 100 0.

(** Fifteen rising prices. *)
Definition rising15 : Series :=
  map (fun k => Fin (inject_Z (Z.of_nat k))) (seq 1 15).

(** Value ranges used in the statements about [rsi]. *)
Definition nonneg_or_nan (x : fnum) : Prop :=
  match x with NaN => True | Fin q => 0 <= q | _ => False end.

Definition pos_or_nan (x : fnum) : Prop :=
  match x with NaN => True | Fin q => 0 < q | _ => False end.

Definition is_fin (x : fnum) : Prop :=
  match x with Fin _ => True | _ => False end.

(** The value of the RSI formula at one bar. *)
Definition rsi_point (g l : fnum) : fnum :=
  fsub (Fin 100) (fdiv (Fin 100) (fadd (Fin 1) (fdiv g l))).

(** A rule passes when it returns [(True, _)]; an exception is not a
    pass. *)
Definition passed (r : rule_result) : bool :=
  match r with
  | Ok (true, _) => true
  | _ => false
  end.

(** The rule list with the rule at position [i] replaced. *)
Definition replace_rule (i : nat) (f : rule) (rules : list rule) : list rule :=
  firstn i rules ++ f :: skipn (S i) rules.

(** A rule that reports [passed = false] with empty metrics. *)
Definition silent_rule (name : string) : rule :=
  (name, fun _ : DataFrame => Ok (false, @nil (string * fnum))).

(** A single bar. *)
Definition one_bar : list candle := [bar 100 5000].

(** A snapshot whose [liquidity] field is JSON null. *)
Definition bad_pair : Pair :=
  [ ("pairAddress"%string, VScalar (SStr "B"));
    ("baseToken"%string, VDict [("symbol"%string, SStr "BAD")]);
    ("liquidity"%string, VScalar SNull) ].

(** A cycle whose candidate source lists [bad_pair] before
    [good_pair]; the series source answers every request with
    [spike_bars]. *)
Definition sample_world : World :=
  mk_world (Ok [bad_pair; good_pair]) (fun _ => Ok (200%nat, spike_bars)).

(** The scanner run with the concrete instances. *)
Definition scan_pair9 := scan_pair sqrt9 decimal_of_string integer_of_string.
Definition scan_pairs9 := scan_pairs sqrt9 decimal_of_string integer_of_string.
Definition scan_once9 := scan_once sqrt9 decimal_of_string integer_of_string.
Definition main9 := main sqrt9 decimal_of_string integer_of_string.

(** Twenty closes with mean 100 whose squared deviations sum to 76. *)
Definition band_series : Series :=
  map Fin [106; 95; 97; 102; 101; 99; 100; 100; 100; 100;
           100; 100; 100; 100; 100; 100; 100; 100; 100; 100].

Definition band_window : list Q :=
  [106; 95; 97; 102; 101; 99; 100; 100; 100; 100;
   100; 100; 100; 100; 100; 100; 100; 100; 100; 100].

(** Stated from the specification, for comparison with [squeeze_of]:
    the current bandwidth is at or below the 20th percentile of the
    last 30 bandwidth values. *)
Definition squeeze_last30 (bw : Series) : result bool :=
  cur <- iloc_last bw ;;
  Ok (fle cur (nanpercentile (dropna (lastn 30 bw)) 20)).

(** The smoothing factor of [ema]. *)
Definition ema_alpha (n : nat) : Q := 2 / (inject_Z (Z.of_nat n) + 1).

(** The textbook recurrence [y_t = (1 - a) * y_(t-1) + a * x_t], for
    comparison with [ewm_loop] on series without missing values. *)
Fixpoint ema_rec (a : Q) (y : Q) (xs : list Q) : list Q :=
  match xs with
  | [] => []
  | x :: t => let y' := (1 - a) * y + a * x in y' :: ema_rec a y' t
  end.

Definition ema_textbook (n : nat) (xs : list Q) : list Q :=
  match xs with
  | [] => []
  | x :: t => x :: ema_rec (ema_alpha n) x t
  end.

(** A float lies in the closed interval [lo, hi]; NaN is let through. *)
Definition within (lo hi : Q) (x : fnum) : Prop :=
  match x with
  | NaN => True
  | Fin q => lo <= q <= hi
  | _ => False
  end.

(** The signed volume [obv] accumulates. *)
Definition obv_flow (close volume : Series) : Series :=
  map fillna0 (smap2 fmul (map fsign (map fillna0 (diff close))) volume).

(** A float that is the number zero. *)
Definition is_zero (x : fnum) : Prop := feq x (Fin 0).

(** A frame whose market cap rises from 100 to 108 over its last bars. *)
Definition rising_mcap_frame : DataFrame :=
  mk_df (flat_bars 7 100 5000) None None
        (Some (map Fin [100; 100; 101; 102; 104; 106; 108])).

(** A snapshot without a [liquidity] field. *)
Definition no_liquidity_pair : Pair :=
  [ ("pairAddress"%string, VScalar (SStr "A"));
    ("priceUsd"%string, VScalar (SStr "1.0")) ].

(** A snapshot whose liquidity figure is a string. *)
Definition string_liquidity_pair : Pair :=
  [ ("pairAddress"%string, VScalar (SStr "A"));
    ("priceUsd"%string, VScalar (SStr "1.0"));
    ("liquidity"%string, VDict [("usd"%string, SStr "50000")]) ].

(** Kinds of events, for counting them in a trace. *)
Definition is_fetch (e : event) : bool :=
  match e with Fetch _ => true | _ => false end.

Definition is_emit (e : event) : bool :=
  match e with Emit _ => true | _ => false end.

Definition is_sleep (e : event) : bool :=
  match e with Sleep => true | _ => false end.

Definition count (p : event -> bool) (evs : list event) : nat :=
  length (filter p evs).

(** A cycle whose candidate source lists [good_pair] only. *)
Definition calm_world : World :=
  mk_world (Ok [good_pair]) (fun _ => Ok (200%nat, spike_bars)).

(** The alert [good_pair] gives on [spike_bars]. *)
Definition sample_alert : Alert :=
  match evaluate sqrt9 decimal_of_string integer_of_string (SStr "TKN")
                 (df_of_candles spike_bars) good_pair with
  | Ok (Some a) => a
  | _ => mk_alert SNull [] NaN NaN 0 None
  end.

(* ------------------------------------------------------------------ *)
(** ** Candidate source: [get_new_solana_pairs]

    The function is modelled from the HTTP response it receives.  The
    sort key [d.get("pairCreatedAt", 0)] is a number (finite or an
    infinity), a string or something else (null, an object); Python
    orders numbers with numbers and strings with strings, and raises
    TypeError on any other comparison.  A sort of two or more elements
    compares every element with some other one, so it succeeds exactly
    when the keys are all numbers or all strings. *)

Inductive sort_key : Type :=
| KNum (q : Q)
| KInf (negative : bool)
| KStr (s : string)
| KOther.

Definition created_key (d : Pair) : sort_key :=
  match get d "pairCreatedAt" (VScalar (SNum 0)) with
  | VScalar (SNum q) => KNum q
  | VScalar (SInf b) => KInf b
  | VScalar (SStr s) => KStr s
  | _ => KOther
  end.

(** A key that is a number, finite or not. *)
Definition is_number_key (k : sort_key) : bool :=
  match k with KNum _ | KInf _ => true | _ => false end.

(** A key that is a finite number. *)
Definition is_num_key (k : sort_key) : bool :=
  match k with KNum _ => true | _ => false end.

Definition is_str_key (k : sort_key) : bool :=
  match k with KStr _ => true | _ => false end.

(** Strict order on keys of the same kind. *)
Definition key_ltb (a b : sort_key) : bool :=
  match a, b with
  | KNum x, KNum y => Qltb x y
  | KNum _, KInf negative => negb negative
  | KInf negative, KNum _ => negative
  | KInf a, KInf b => a && negb b
  | KStr x, KStr y => String.ltb x y
  | _, _ => false
  end.

(** Stable insertion for a descending order: the new element, which
    came first in the input, goes before the first element whose key
    is not greater. *)
Fixpoint insert_desc (d : Pair) (l : list Pair) : list Pair :=
  match l with
  | [] => [d]
  | y :: t =>
      if key_ltb (created_key d) (created_key y)
      then y :: insert_desc d t
      else d :: l
  end.

Definition sort_desc (data : list Pair) : list Pair :=
  fold_right insert_desc [] data.

(** [data.sort(key=lambda d: d.get("pairCreatedAt", 0), reverse=True)]. *)
Definition sort_newest_first (data : list Pair) : result (list Pair) :=
  if (length data <=? 1)%nat then Ok data
  else if forallb (fun d => is_number_key (created_key d)) data
          || forallb (fun d => is_str_key (created_key d)) data
       then Ok (sort_desc data)
       else Raise TypeError.

(** The body of the response: not JSON, or a JSON object without
    [pairs], with [pairs] null, or with a list of pair objects. *)
Inductive pairs_body : Type :=
| BodyInvalid
| BodyNoPairs
| BodyNull
| BodyPairs (l : list Pair).

Definition get_new_solana_pairs_from (r : result (nat * pairs_body))
  : result (list Pair) :=
  resp <- r ;;
  if ((400 <=? fst resp) && (fst resp <? 600))%nat then Raise RequestError
  else
    match snd resp with
    | BodyInvalid => Raise ValueError
    | BodyNoPairs => sort_newest_first []
    | BodyNull => Raise AttributeError
    | BodyPairs l => sort_newest_first l
    end.

(** ** Series source: [get_candles] from the response

    The body of the candle response: not JSON ([r.json()] raises
    ValueError), JSON that is not an object ([.get] raises
    AttributeError), an object without [candles], with [candles] null,
    or with a list of candles. *)
Inductive candles_body : Type :=
| CandlesInvalid
| CandlesNotObject
| CandlesAbsent
| CandlesNull
| CandlesList (cs : list candle).

Definition get_candles_from (r : result (nat * candles_body))
  : result DataFrame :=
  resp <- r ;;
  if negb (fst resp =? 200)%nat then Ok (df_of_candles [])
  else
    match snd resp with
    | CandlesInvalid => Raise ValueError
    | CandlesNotObject => Raise AttributeError
    | CandlesAbsent => Ok (df_of_candles [])
    | CandlesNull => Ok (df_of_candles [])
    | CandlesList [] => Ok (df_of_candles [])
    | CandlesList cs => Ok (df_of_candles (lastn LOOKBACK cs))
    end.

(** What [http_candles] holds for a response: the status and the
    candle list read from the body; the body is read on status 200
    only. *)
Definition read_candles (r : result (nat * candles_body))
  : result (nat * list candle) :=
  resp <- r ;;
  if negb (fst resp =? 200)%nat then Ok (fst resp, [])
  else
    match snd resp with
    | CandlesInvalid => Raise ValueError
    | CandlesNotObject => Raise AttributeError
    | CandlesAbsent => Ok (fst resp, [])
    | CandlesNull => Ok (fst resp, [])
    | CandlesList cs => Ok (fst resp, cs)
    end.

(** The creation time of a pair whose key is a finite number. *)
Definition created_at (d : Pair) : Q :=
  match created_key d with
  | KNum q => q
  | _ => 0
  end.

Definition numeric_keys (data : list Pair) : Prop :=
  Forall (fun d => is_num_key (created_key d) = true) data.


(** Three pairs created at times 5, 9 and 5. *)
Definition pair_created (name : string) (t : Q) : Pair :=
  [ ("pairAddress"%string, VScalar (SStr name));
    ("pairCreatedAt"%string, VScalar (SNum t)) ].

Definition three_pairs : list Pair :=
  [pair_created "a" 5; pair_created "b" 9; pair_created "c" 5].

(** A pair whose creation time is null. *)
Definition pair_created_null : Pair :=
  [ ("pairAddress"%string, VScalar (SStr "n"));
    ("pairCreatedAt"%string, VScalar SNull) ].

(** A cycle in which the series source has only 59 bars for every
    pair; the candidates include the pair with a null liquidity. *)
Definition short_world : World :=
  mk_world (Ok [bad_pair; good_pair])
           (fun _ => Ok (200%nat, flat_bars 59 100 5000)).

(** Twenty-one candidates: twenty copies of [good_pair], then
    [bad_pair]. *)
Definition crowded_world : World :=
  mk_world (Ok (repeat good_pair 20 ++ [bad_pair]))
           (fun _ => Ok (200%nat, uptick_bars)).

Definition twenty_world : World :=
  mk_world (Ok (repeat good_pair 20)) (fun _ => Ok (200%nat, uptick_bars)).

(* ================================================================== *)
(** * Properties *)

(** ** Rational comparisons *)

Lemma Qltb_lt (a b : Q) : Qltb a b = true <-> a < b.
Proof.
  unfold Qltb. rewrite negb_true_iff. split; intro H.
  - apply Qnot_le_lt. intro L. apply Qle_bool_iff in L. congruence.
  - destruct (Qle_bool b a) eqn:E; [|reflexivity].
    apply Qle_bool_iff in E. exfalso. apply (Qlt_not_le _ _ H E).
Qed.

Lemma Qltb_ge (a b : Q) : Qltb a b = false <-> b <= a.
Proof.
  unfold Qltb. rewrite negb_false_iff. apply Qle_bool_iff.
Qed.

Lemma Qle_bool_false (a b : Q) : Qle_bool a b = false <-> b < a.
Proof.
  rewrite <- Qltb_lt. unfold Qltb. rewrite negb_true_iff. reflexivity.
Qed.

Lemma Qeq_bool_false (a b : Q) : Qeq_bool a b = false <-> ~ a == b.
Proof.
  split; intro H.
  - intro E. apply Qeq_bool_iff in E. congruence.
  - destruct (Qeq_bool a b) eqn:E; [|reflexivity].
    apply Qeq_bool_iff in E. contradiction.
Qed.

(** ** Lists and series *)

Lemma length_smap2 f (a b : Series) :
  length (smap2 f a b) = Nat.min (length a) (length b).
Proof. unfold smap2. now rewrite length_map, length_combine. Qed.

Lemma length_shift k (s : Series) : length (shift k s) = length s.
Proof.
  unfold shift. rewrite length_firstn, length_app, repeat_length. lia.
Qed.

Lemma length_rolling n agg (s : Series) : length (rolling n agg s) = length s.
Proof. unfold rolling. now rewrite length_map, length_seq. Qed.

Lemma length_diff (s : Series) : length (diff s) = length s.
Proof. unfold diff. rewrite length_smap2, length_shift. lia. Qed.

Lemma nth_smap2 f (a b : Series) i :
  (i < length a)%nat -> (i < length b)%nat ->
  nth i (smap2 f a b) NaN = f (nth i a NaN) (nth i b NaN).
Proof.
  intros Ha Hb. unfold smap2.
  rewrite (nth_indep _ NaN (f (fst (NaN, NaN)) (snd (NaN, NaN)))).
  - rewrite (map_nth (fun p => f (fst p) (snd p))).
    revert b i Ha Hb. induction a as [|x a IH]; intros [|y b] i Ha Hb;
      simpl in *; try lia.
    destruct i; simpl; [reflexivity|]. apply IH; lia.
  - rewrite length_map, length_combine. lia.
Qed.

Lemma nth_rolling n agg (s : Series) i :
  (i < length s)%nat ->
  nth i (rolling n agg s) NaN =
  match window n s i with Some w => agg w | None => NaN end.
Proof.
  intro H. unfold rolling.
  set (g := fun i => match window n s i with Some w => agg w | None => NaN end).
  rewrite (nth_indep _ NaN (g 0%nat)) by (rewrite length_map, length_seq; lia).
  rewrite map_nth, seq_nth by lia. reflexivity.
Qed.

Lemma iloc_last_nth (s : Series) :
  (0 < length s)%nat -> iloc_last s = Ok (nth (length s - 1) s NaN).
Proof.
  intro H. unfold iloc_last.
  destruct s as [|x t] using rev_ind; [simpl in H; lia|].
  rewrite rev_app_distr. simpl.
  rewrite length_app. simpl.
  rewrite app_nth2 by lia.
  replace (length t + 1 - 1 - length t)%nat with 0%nat by lia. reflexivity.
Qed.

Lemma iloc_last_ok (s : Series) x : iloc_last s = Ok x -> (0 < length s)%nat.
Proof.
  unfold iloc_last. destruct s as [|y t]; simpl; [discriminate|lia].
Qed.

Lemma all_finite_In w qs :
  all_finite w = Some qs -> forall q, In q qs -> In (Fin q) w.
Proof.
  revert qs. induction w as [|x w IH]; simpl; intros qs H q Hq.
  - inversion H; subst. contradiction.
  - destruct x; try discriminate.
    destruct (all_finite w) as [qs'|] eqn:E; [|discriminate].
    inversion H; subst. destruct Hq as [->|Hq]; [now left|].
    right. eapply IH; eauto.
Qed.

Lemma all_finite_length w qs : all_finite w = Some qs -> length qs = length w.
Proof.
  revert qs. induction w as [|x w IH]; simpl; intros qs H.
  - now inversion H.
  - destruct x; try discriminate.
    destruct (all_finite w) as [qs'|] eqn:E; [|discriminate].
    inversion H; subst. simpl. f_equal. now apply IH.
Qed.

Lemma In_firstn_In {A} n (l : list A) x : In x (firstn n l) -> In x l.
Proof.
  intro H. rewrite <- (firstn_skipn n l). apply in_or_app. now left.
Qed.

Lemma In_skipn_In {A} n (l : list A) x : In x (skipn n l) -> In x l.
Proof.
  intro H. rewrite <- (firstn_skipn n l). apply in_or_app. now right.
Qed.

Lemma window_In n (s : Series) i w :
  window n s i = Some w -> forall q, In q w -> In (Fin q) s.
Proof.
  unfold window. destruct (i + 1 <? n)%nat; [discriminate|].
  intros H q Hq. apply (all_finite_In _ _ H) in Hq.
  apply In_firstn_In in Hq. eapply In_skipn_In; eauto.
Qed.

Lemma window_length n (s : Series) i w :
  (i < length s)%nat -> window n s i = Some w -> length w = n.
Proof.
  unfold window. destruct (i + 1 <? n)%nat eqn:E; [discriminate|].
  apply Nat.ltb_ge in E. intros Hi H.
  rewrite (all_finite_length _ _ H), length_firstn, length_skipn. lia.
Qed.

(** ** RSI *)

Lemma Qsum_nonneg w : (forall q, In q w -> 0 <= q) -> 0 <= Qsum w.
Proof.
  induction w as [|x w IH]; simpl; intro H; [apply Qle_refl|].
  assert (0 <= x) by (apply H; now left).
  assert (0 <= Qsum w) by (apply IH; intros; apply H; now right).
  unfold Qsum in *. lra.
Qed.

Lemma Qmean_nonneg w : (forall q, In q w -> 0 <= q) -> 0 <= Qmean w.
Proof.
  intro H. unfold Qmean, Qdiv. apply Qmult_le_0_compat.
  - now apply Qsum_nonneg.
  - apply Qinv_le_0_compat. unfold Qle; simpl. lia.
Qed.

Lemma In_clip_nonneg (s : Series) q : In (Fin q) (map clip_lower0 s) -> 0 <= q.
Proof.
  rewrite in_map_iff. intros [x [Hx _]].
  destruct x; simpl in Hx; try discriminate.
  - inversion Hx; subst. apply Qle_refl.
  - destruct (Qltb q0 0) eqn:E; inversion Hx; subst.
    + apply Qle_refl.
    + now apply Qltb_ge.
Qed.

Lemma rolling_mean_nonneg n (s : Series) i :
  (forall q, In (Fin q) s -> 0 <= q) ->
  (i < length s)%nat ->
  nonneg_or_nan (nth i (rolling_mean n s) NaN).
Proof.
  intros H Hi. unfold rolling_mean. rewrite nth_rolling by assumption.
  destruct (window n s i) as [w|] eqn:E; simpl; [|exact I].
  apply Qmean_nonneg. intros q Hq. apply H. eapply window_In; eauto.
Qed.

Lemma replace_zero_pos y x :
  0 < y -> nonneg_or_nan x -> pos_or_nan (replace_zero y x).
Proof.
  intros Hy. destruct x; simpl; try tauto.
  intro H. destruct (Qeq_bool q 0) eqn:E; simpl; [assumption|].
  apply Qeq_bool_false in E. apply Qle_lteq in H.
  destruct H as [H|H]; [assumption|]. exfalso. apply E. now symmetry.
Qed.

Lemma nth_map_NaN (f : fnum -> fnum) (s : Series) i :
  (i < length s)%nat -> nth i (map f s) NaN = f (nth i s NaN).
Proof.
  intro H. rewrite (nth_indep _ NaN (f NaN)) by (now rewrite length_map).
  apply map_nth.
Qed.

Lemma rsi_avg_gain_spec (s : Series) n i :
  (i < length s)%nat -> nonneg_or_nan (nth i (rsi_avg_gain s n) NaN).
Proof.
  intro Hi. unfold rsi_avg_gain. apply rolling_mean_nonneg.
  - apply In_clip_nonneg.
  - now rewrite length_map, length_diff.
Qed.

Lemma rsi_avg_loss_spec (s : Series) n i :
  (i < length s)%nat -> pos_or_nan (nth i (rsi_avg_loss s n) NaN).
Proof.
  intro Hi. unfold rsi_avg_loss.
  rewrite nth_map_NaN
    by (unfold rolling_mean; now rewrite length_rolling, !length_map, length_diff).
  apply replace_zero_pos; [reflexivity|].
  apply rolling_mean_nonneg.
  - apply In_clip_nonneg.
  - now rewrite !length_map, length_diff.
Qed.

Lemma length_rsi_avg_gain (s : Series) n : length (rsi_avg_gain s n) = length s.
Proof.
  unfold rsi_avg_gain, rolling_mean.
  now rewrite length_rolling, length_map, length_diff.
Qed.

Lemma length_rsi_avg_loss (s : Series) n : length (rsi_avg_loss s n) = length s.
Proof.
  unfold rsi_avg_loss, rolling_mean.
  now rewrite length_map, length_rolling, !length_map, length_diff.
Qed.

Lemma length_rsi (s : Series) n : length (rsi s n) = length s.
Proof.
  unfold rsi.
  rewrite length_map, length_smap2, length_rsi_avg_gain, length_rsi_avg_loss.
  lia.
Qed.

Lemma nth_rsi (s : Series) n i :
  (i < length s)%nat ->
  nth i (rsi s n) NaN =
  rsi_point (nth i (rsi_avg_gain s n) NaN) (nth i (rsi_avg_loss s n) NaN).
Proof.
  intro Hi. unfold rsi.
  rewrite nth_map_NaN
    by (rewrite length_smap2, length_rsi_avg_gain, length_rsi_avg_loss; lia).
  rewrite nth_smap2
    by (rewrite ?length_rsi_avg_gain, ?length_rsi_avg_loss; lia).
  reflexivity.
Qed.

Lemma rsi_point_bounds g l :
  nonneg_or_nan g -> pos_or_nan l ->
  match rsi_point g l with
  | NaN => g = NaN \/ l = NaN
  | Fin q => 0 <= q <= 100
  | _ => False
  end.
Proof.
  destruct g as [| | |a]; simpl; try tauto; intro Ha.
  destruct l as [| | |b]; simpl; try tauto; intro Hb.
  unfold rsi_point. simpl.
  assert (Eb : Qeq_bool b 0 = false).
  { apply Qeq_bool_false. intro E. rewrite E in Hb. discriminate. }
  rewrite Eb. simpl.
  assert (Hr : 0 <= a / b).
  { apply Qle_shift_div_l; [assumption|]. lra. }
  assert (Ed : Qeq_bool (1 + a / b) 0 = false).
  { apply Qeq_bool_false. intro E. lra. }
  rewrite Ed. simpl.
  assert (Hd : 0 < 1 + a / b) by lra.
  assert (H1 : 100 / (1 + a / b) <= 100).
  { apply Qle_shift_div_r; [assumption|]. lra. }
  assert (H2 : 0 <= 100 / (1 + a / b)).
  { apply Qle_shift_div_l; [assumption|]. lra. }
  lra.
Qed.

Lemma nth_shift k (s : Series) i :
  (i < length s)%nat ->
  nth i (shift k s) NaN = if (i <? k)%nat then NaN else nth (i - k) s NaN.
Proof.
  intro Hi. unfold shift. rewrite nth_firstn.
  destruct (i <? length s)%nat eqn:E; [|apply Nat.ltb_ge in E; lia].
  destruct (i <? k)%nat eqn:Ek.
  - apply Nat.ltb_lt in Ek.
    rewrite app_nth1 by (rewrite repeat_length; lia). apply nth_repeat.
  - apply Nat.ltb_ge in Ek.
    rewrite app_nth2 by (rewrite repeat_length; lia).
    now rewrite repeat_length.
Qed.

Lemma nth_diff (s : Series) i :
  (i < length s)%nat ->
  nth i (diff s) NaN =
  fsub (nth i s NaN) (if (i <? 1)%nat then NaN else nth (i - 1) s NaN).
Proof.
  intro Hi. unfold diff.
  rewrite nth_smap2 by (rewrite ?length_shift; lia).
  now rewrite nth_shift.
Qed.

Lemma all_finite_some w :
  (forall x, In x w -> is_fin x) -> exists qs, all_finite w = Some qs.
Proof.
  induction w as [|x w IH]; intro H; simpl.
  - now exists [].
  - assert (Hx : is_fin x) by (apply H; now left).
    destruct x; simpl in Hx; try contradiction.
    destruct IH as [qs E]; [intros; apply H; now right|].
    rewrite E. now eexists.
Qed.

Lemma window_defined n (s : Series) i :
  (i < length s)%nat -> (n <= i + 1)%nat ->
  (forall j, (i + 1 - n <= j <= i)%nat -> is_fin (nth j s NaN)) ->
  exists w, window n s i = Some w.
Proof.
  intros Hi Hn H. unfold window.
  destruct (i + 1 <? n)%nat eqn:E; [apply Nat.ltb_lt in E; lia|].
  apply all_finite_some. intros x Hx.
  destruct (In_nth _ _ NaN Hx) as [j [Hj Ej]].
  rewrite length_firstn, length_skipn in Hj.
  rewrite nth_firstn in Ej.
  destruct (j <? n)%nat eqn:Ejn; [|apply Nat.ltb_ge in Ejn; lia].
  rewrite nth_skipn in Ej. subst x. apply H. lia.
Qed.

Lemma nth_finite (s : Series) i :
  Forall is_fin s -> (i < length s)%nat -> is_fin (nth i s NaN).
Proof.
  intros H Hi. rewrite Forall_forall in H. apply H. now apply nth_In.
Qed.

(** C9.  For a finite series of at least [n + 1] points ([n >= 1]) every
    defined value of [rsi] lies in [0, 100], and the divisor of the
    quotient (the average loss after the replacement of zero by 1e-9)
    is never zero. *)
Theorem rsi_bounded (series : Series) (n : nat) :
  Forall is_fin series -> (1 <= n)%nat -> (n + 1 <= length series)%nat ->
  (forall i q, nth i (rsi series n) NaN = Fin q -> 0 <= q <= 100) /\
  (forall i, (i < length series)%nat ->
             ~ feq (nth i (rsi_avg_loss series n) NaN) (Fin 0)).
Proof.
  intros Hfin Hn Hlen. split.
  - intros i q E.
    assert (Hi : (i < length series)%nat).
    { destruct (Nat.lt_ge_cases i (length series)) as [L|L]; [assumption|].
      rewrite nth_overflow in E by (now rewrite length_rsi). discriminate. }
    rewrite nth_rsi in E by assumption.
    pose proof (rsi_point_bounds _ _ (rsi_avg_gain_spec series n i Hi)
                  (rsi_avg_loss_spec series n i Hi)) as B.
    now rewrite E in B.
  - intros i Hi F.
    pose proof (rsi_avg_loss_spec series n i Hi) as P.
    destruct (nth i (rsi_avg_loss series n) NaN); simpl in *; try contradiction.
    rewrite F in P. discriminate.
Qed.

(** On fifteen rising prices the value at the last bar is defined, so
    the bound is not an empty statement there. *)
Lemma rsi_bounded_witness :
  (exists q, nth 14 (rsi rising15 14) NaN = Fin q /\ 0 <= q <= 100) /\
  ~ feq (nth 14 (rsi_avg_loss rising15 14) NaN) (Fin 0).
Proof.
  pose proof (rsi_bounded rising15 14
                ltac:(repeat constructor) ltac:(lia) ltac:(simpl; lia))
    as [B Z].
  split.
  - eexists. split; [vm_compute; reflexivity|].
    apply (B 14%nat). vm_compute. reflexivity.
  - apply Z. simpl. lia.
Defined.

(** ** Enrichment and the market-cap rule *)

Lemma enrich_ok fos (df : DataFrame) (pair : Pair) df' :
  enrich_with_snapshot fos df pair = Ok df' ->
  candles df' = candles df /\
  (exists v, liquidityUsd df' = Some (repeat (cell_of_scalar v) (len df))) /\
  (exists px, volumeUsd df' = Some (map (fun v => fmul v px) (col_volume df))) /\
  (exists m, mcap df' = Some (repeat m (len df))).
Proof.
  unfold enrich_with_snapshot.
  destruct (attr_get (get pair "liquidity" (VDict [])) "usd") as [usd|e];
    simpl; [|discriminate].
  destruct (attr_get (get pair "liquidity" (VDict [])) "base") as [base|e];
    simpl; [|discriminate].
  intro H. inversion H; subst; clear H. simpl.
  repeat split; eexists; reflexivity.
Qed.

Lemma length_pct_change k (s : Series) : length (pct_change k s) = length s.
Proof.
  unfold pct_change. rewrite length_map, length_smap2, length_shift. lia.
Qed.

Lemma pct_change_last k (s : Series) :
  (0 < length s)%nat ->
  iloc_last (pct_change k s) =
  Ok (fsub (fdiv (nth (length s - 1) s NaN)
                 (if (length s - 1 <? k)%nat then NaN
                  else nth (length s - 1 - k) s NaN))
           (Fin 1)).
Proof.
  intro H. rewrite iloc_last_nth by (now rewrite length_pct_change).
  rewrite length_pct_change. unfold pct_change.
  rewrite nth_map_NaN by (rewrite length_smap2, length_shift; lia).
  rewrite nth_smap2 by (rewrite ?length_shift; lia).
  rewrite nth_shift by lia. reflexivity.
Qed.

Lemma isna_all_repeat m n :
  isna_all (repeat m n) = false -> (0 < n)%nat /\ m <> NaN.
Proof.
  destruct n; simpl; [discriminate|].
  intro H. split; [lia|]. intro E. subst m. simpl in H.
  induction n; simpl in *; congruence.
Qed.

(** The change measured on a broadcast column: undefined or zero. *)
Lemma self_ratio m :
  let x := fmul (fsub (fdiv m m) (Fin 1)) (Fin 100) in
  (x = NaN \/ feq x (Fin 0)) /\ fgt x (Fin 5) = false.
Proof.
  destruct m as [| | |q]; simpl; try (split; [now left|reflexivity]).
  destruct (Qeq_bool q 0) eqn:E; simpl; [split; [now left|reflexivity]|].
  apply Qeq_bool_false in E.
  assert (H : (q / q + - (1)) * 100 == 0) by (field; assumption).
  split; [now right|].
  unfold fgt. simpl. apply Qltb_ge. rewrite H. discriminate.
Qed.

(** C1.  Enrichment broadcasts one market-cap value onto every bar;
    on every enriched series [rule_mcap_roc] returns [passed = false],
    whether that value is a number or missing.  The change it reports
    is never a non-zero number, and it is zero whenever the value is a
    non-zero number and the series is longer than the lookback. *)
Theorem mcap_roc_never_fires fos (df : DataFrame) (pair : Pair) df' :
  enrich_with_snapshot fos df pair = Ok df' ->
  exists m meta,
    mcap df' = Some (repeat m (len df')) /\
    rule_mcap_roc df' = Ok (false, meta) /\
    (forall x, In ("roc%"%string, x) meta -> x = NaN \/ feq x (Fin 0)) /\
    (forall q, m = Fin q -> ~ q == 0 -> (ROC_WINDOW < len df')%nat ->
               exists x, meta = [("roc%"%string, x)] /\ feq x (Fin 0)).
Proof.
  intro H. destruct (enrich_ok _ _ _ _ H) as [Hc [_ [_ [m Hm]]]].
  assert (Hl : len df' = len df) by (unfold len; now rewrite Hc).
  exists m. unfold rule_mcap_roc. rewrite Hm, Hl.
  destruct (isna_all (repeat m (len df))) eqn:E.
  - exists []. repeat split; try easy.
    intros q -> _ Hn. destruct (len df); [inversion Hn|discriminate].
  - destruct (isna_all_repeat _ _ E) as [Hn Hm'].
    rewrite pct_change_last by (now rewrite repeat_length).
    rewrite repeat_length. cbn [rbind].
    rewrite nth_repeat_lt by lia.
    destruct (len df - 1 <? ROC_WINDOW)%nat eqn:Ew.
    + replace (fdiv m NaN) with NaN by (now destruct m).
      simpl. eexists. repeat split.
      * intros x [Hx|[]]. inversion Hx. now left.
      * intros q _ _ Hlt. apply Nat.ltb_lt in Ew. lia.
    + rewrite nth_repeat_lt by lia.
      destruct (self_ratio m) as [Hz Hf].
      rewrite Hf. eexists. repeat split.
      * intros x [Hx|[]]. inversion Hx; subst. exact Hz.
      * intros q -> Hq _. eexists. split; [reflexivity|].
        destruct Hz as [Hz|Hz]; [|exact Hz].
        simpl in Hz. apply Qeq_bool_false in Hq. rewrite Hq in Hz.
        discriminate.
Qed.

Lemma mcap_roc_never_fires_witness :
  exists m meta,
    mcap (enriched uptick_bars good_pair)
    = Some (repeat m (len (enriched uptick_bars good_pair))) /\
    rule_mcap_roc (enriched uptick_bars good_pair) = Ok (false, meta) /\
    (forall x, In ("roc%"%string, x) meta -> x = NaN \/ feq x (Fin 0)) /\
    (forall q, m = Fin q -> ~ q == 0 ->
               (ROC_WINDOW < len (enriched uptick_bars good_pair))%nat ->
               exists x, meta = [("roc%"%string, x)] /\ feq x (Fin 0)).
Proof.
  apply (mcap_roc_never_fires decimal_of_string
           (df_of_candles uptick_bars) good_pair).
  vm_compute. reflexivity.
Defined.

(** ** Guard *)

Lemma cell_last_repeat c n x :
  cell_last (repeat c n) = Ok x -> (0 < n)%nat /\ x = c.
Proof.
  unfold cell_last. rewrite rev_repeat.
  destruct n; simpl; [discriminate|].
  intro H. inversion H. split; [lia|reflexivity].
Qed.

Lemma length_rolling_mean n (s : Series) : length (rolling_mean n s) = length s.
Proof. apply length_rolling. Qed.

(** C7.  On an enriched series whose liquidity is one unit below
    [MIN_LIQ_USD] the guard rejects; with liquidity equal to
    [MIN_LIQ_USD] it admits as soon as the volume guard passes. *)
Theorem guards_liquidity_boundary fos (df0 : DataFrame) (pair : Pair) df l x :
  enrich_with_snapshot fos df0 pair = Ok df ->
  liquidityUsd df = Some l ->
  cell_last l = Ok (CNum (Fin x)) ->
  (x == MIN_LIQ_USD - 1 -> guards df = Ok false) /\
  (x == MIN_LIQ_USD ->
   forall vu vavg,
     volumeUsd df = Some vu ->
     iloc_last (rolling_mean 20 vu) = Ok vavg ->
     fge vavg (Fin MIN_ABS_VOLUME_USD) = true ->
     guards df = Ok true).
Proof.
  intros He Hl Hx.
  destruct (enrich_ok _ _ _ _ He) as [_ [[c Hc] [[px Hv] _]]].
  rewrite Hl in Hc. inversion Hc; subst l; clear Hc.
  destruct (cell_last_repeat _ _ _ Hx) as [Hn _].
  split.
  - intro E. unfold guards. rewrite Hv, Hl, Hx.
    rewrite iloc_last_nth
      by (rewrite length_rolling_mean, length_map; unfold col_volume;
          rewrite length_map; exact Hn).
    cbn [rbind cell_ge]. unfold fge, fle.
    assert (F : Qle_bool MIN_LIQ_USD x = false).
    { apply Qle_bool_false. rewrite E. reflexivity. }
    rewrite F. now rewrite andb_false_r.
  - intros E vu vavg Hvu Ha Hg. unfold guards. rewrite Hvu, Hl, Hx, Ha.
    cbn [rbind cell_ge]. rewrite Hg. unfold fge, fle.
    assert (F : Qle_bool MIN_LIQ_USD x = true).
    { apply Qle_bool_iff. rewrite E. apply Qle_refl. }
    now rewrite F.
Qed.

Lemma guards_liquidity_boundary_witness :
  guards (enriched uptick_bars (pair_with_liquidity 29999)) = Ok false /\
  guards (enriched uptick_bars (pair_with_liquidity 30000)) = Ok true.
Proof.
  split.
  - apply (proj1 (guards_liquidity_boundary decimal_of_string
                    (df_of_candles uptick_bars) (pair_with_liquidity 29999)
                    (enriched uptick_bars (pair_with_liquidity 29999))
                    (repeat (CNum (Fin 29999)) 60) 29999
                    ltac:(vm_compute; reflexivity)
                    ltac:(vm_compute; reflexivity)
                    ltac:(vm_compute; reflexivity))).
    reflexivity.
  - eapply (proj2 (guards_liquidity_boundary decimal_of_string
                    (df_of_candles uptick_bars) (pair_with_liquidity 30000)
                    (enriched uptick_bars (pair_with_liquidity 30000))
                    (repeat (CNum (Fin 30000)) 60) 30000
                    ltac:(vm_compute; reflexivity)
                    ltac:(vm_compute; reflexivity)
                    ltac:(vm_compute; reflexivity))).
    + reflexivity.
    + vm_compute. reflexivity.
    + vm_compute. reflexivity.
    + vm_compute. reflexivity.
Defined.

(** C5.  A sixty-bar series trading 5000 units per bar, enriched with a
    snapshot that carries no USD price: the [volumeUsd] column exists
    and is NaN throughout, so the guard averages that column and
    rejects; the same frame without the column is admitted on raw
    volume. *)
Theorem guards_no_fallback_when_price_missing :
  let df := enriched uptick_bars no_price_pair in
  volumeUsd df = Some (repeat NaN 60) /\
  guards df = Ok false /\
  guards (mk_df (candles df) (liquidityUsd df) None (mcap df)) = Ok true.
Proof. vm_compute. repeat split; reflexivity. Qed.

(** ** EMA cross: the zero-average substitution *)

Lemma fdiv_one x : feq (fdiv x (Fin 1)) x.
Proof.
  destruct x; simpl; try exact I. field.
Qed.

Lemma for_else_nonzero x : ~ feq (for_else x (Fin 1)) (Fin 0).
Proof.
  unfold for_else. destruct x; simpl; try tauto.
  destruct (Qeq_bool q 0) eqn:E; simpl.
  - discriminate.
  - now apply Qeq_bool_false.
Qed.

(** C10.  When the 20-bar average of the NaN-filled USD volume at the
    latest bar is zero, [rule_ema_cross] divides and compares with 1
    instead: the confirmation is [v_last > 1.5] and the reported
    multiple is [v_last] itself.  Whatever the series, the divisor is
    never zero. *)
Theorem ema_cross_zero_average (df : DataFrame) vu m cross vlast :
  volumeUsd df = Some vu ->
  ema_cross_flag df = Ok cross ->
  iloc_last (rolling_mean 20 (map fillna0 vu)) = Ok (Fin m) ->
  m == 0 ->
  iloc_last (map fillna0 vu) = Ok vlast ->
  ema_vavg (map fillna0 vu) = Ok (Fin 1) /\
  (exists mult,
     rule_ema_cross df
     = Ok (cross && fgt vlast (Fin VOL_MULT_CONFIRM),
           [("vol_mult"%string, mult)]) /\
     feq mult vlast) /\
  (forall v d, ema_vavg v = Ok d -> ~ feq d (Fin 0)).
Proof.
  intros Hv Hc Hm Hz Hl.
  assert (Ha : ema_vavg (map fillna0 vu) = Ok (Fin 1)).
  { unfold ema_vavg. rewrite Hm. cbn [rbind]. unfold for_else, truthy.
    apply Qeq_bool_iff in Hz. now rewrite Hz. }
  split; [exact Ha|]. split.
  - exists (fdiv vlast (Fin 1)). split; [|apply fdiv_one].
    unfold rule_ema_cross. rewrite Hv. cbn [column rbind].
    rewrite Hc. cbn [rbind]. rewrite Ha. cbn [rbind]. rewrite Hl. cbn [rbind].
    reflexivity.
  - intros v d. unfold ema_vavg.
    destruct (iloc_last (rolling_mean 20 v)) as [x|e]; cbn [rbind];
      [|discriminate].
    intro E. inversion E. apply for_else_nonzero.
Qed.


Lemma ema_cross_zero_average_witness :
  ema_vavg (map fillna0 (repeat (Fin (0 # 10)) 60)) = Ok (Fin 1) /\
  (exists mult,
     rule_ema_cross (enriched idle_bars good_pair)
     = Ok (false && fgt (Fin (0 # 10)) (Fin VOL_MULT_CONFIRM),
           [("vol_mult"%string, mult)]) /\
     feq mult (Fin (0 # 10))) /\
  (forall v d, ema_vavg v = Ok d -> ~ feq d (Fin 0)).
Proof.
  apply (ema_cross_zero_average (enriched idle_bars good_pair)
           (repeat (Fin (0 # 10)) 60) (0 # 2000000000000000000000)
           false (Fin (0 # 10))).
  - vm_compute. reflexivity.
  - vm_compute. reflexivity.
  - vm_compute. reflexivity.
  - reflexivity.
  - vm_compute. reflexivity.
Defined.

(** ** Aggregation *)

Lemma run_rules_spec (rules : list rule) (df : DataFrame) acc :
  run_rules rules df acc
  = Ok (acc ++ map fst (filter (fun f => passed (snd f df)) rules)).
Proof.
  revert acc. induction rules as [|f rest IH]; intro acc; simpl.
  - now rewrite app_nil_r.
  - destruct (snd f df) as [[b m]|e]; simpl.
    + rewrite IH. destruct b; simpl; [|reflexivity].
      now rewrite <- app_assoc.
    + apply IH.
Qed.

Lemma passed_iff (r : rule_result) :
  passed r = true <-> exists m, r = Ok (true, m).
Proof.
  split.
  - destruct r as [[[|] m]|e]; simpl; try discriminate. intros _. now exists m.
  - intros [m ->]. reflexivity.
Qed.

Lemma In_passing_names (rules : list rule) (p : rule -> bool) g :
  NoDup (map fst rules) -> In g rules ->
  (In (fst g) (map fst (filter p rules)) <-> p g = true).
Proof.
  intros Hnd Hg. split.
  - rewrite in_map_iff. intros [g' [Hn Hf]].
    apply filter_In in Hf. destruct Hf as [Hin Hp].
    assert (g' = g); [|now subst].
    clear Hp. induction rules as [|r rest IH]; [contradiction|].
    simpl in Hnd. inversion Hnd as [|? ? Hnot Hnd']; subst.
    destruct Hin as [Hin|Hin], Hg as [Hg|Hg]; subst.
    + reflexivity.
    + exfalso. apply Hnot. rewrite Hn. now apply in_map.
    + exfalso. apply Hnot. rewrite <- Hn. now apply in_map.
    + now apply IH.
  - intro Hp. apply in_map. apply filter_In. now split.
Qed.

Lemma RULES_names_NoDup sqrt : NoDup (map fst (RULES sqrt)).
Proof.
  simpl. repeat constructor; simpl; intuition discriminate.
Qed.

Lemma run_rules_replace_raising (rules : list rule) df i f e acc :
  nth_error rules i = Some f -> snd f df = Raise e ->
  run_rules (replace_rule i (silent_rule (fst f)) rules) df acc
  = run_rules rules df acc.
Proof.
  intros Hn He. rewrite !run_rules_spec. do 2 f_equal.
  unfold replace_rule.
  rewrite <- (firstn_skipn i rules) at 3.
  rewrite !filter_app. f_equal.
  assert (Hs : skipn i rules = f :: skipn (S i) rules).
  { clear He. revert i Hn. induction rules as [|r rest IH]; intros [|i] Hn;
      simpl in *; try discriminate.
    - now inversion Hn.
    - now apply IH. }
  rewrite Hs. simpl. now rewrite He.
Qed.

(** C8.  When one of the five rules raises on a frame, the rule loop
    still returns: its result is the one obtained with that rule
    reporting [(False, {})], the raising rule is not among the hits, and
    every other rule is a hit exactly when it passed. *)
Theorem rule_exception_isolated sqrt (df : DataFrame) i f e :
  nth_error (RULES sqrt) i = Some f ->
  snd f df = Raise e ->
  exists hs,
    run_rules (RULES sqrt) df [] = Ok hs /\
    run_rules (replace_rule i (silent_rule (fst f)) (RULES sqrt)) df [] = Ok hs /\
    ~ In (fst f) hs /\
    forall g, In g (RULES sqrt) ->
              (In (fst g) hs <-> exists m, snd g df = Ok (true, m)).
Proof.
  intros Hn He.
  exists (map fst (filter (fun f => passed (snd f df)) (RULES sqrt))).
  assert (Hr : run_rules (RULES sqrt) df []
               = Ok (map fst (filter (fun f => passed (snd f df)) (RULES sqrt))))
    by apply run_rules_spec.
  split; [exact Hr|]. split.
  - rewrite (run_rules_replace_raising _ _ _ _ e _ Hn He). exact Hr.
  - split.
    + intro Hin.
      apply (In_passing_names _ (fun f => passed (snd f df)) f
               (RULES_names_NoDup sqrt) (nth_error_In _ _ Hn)) in Hin.
      rewrite He in Hin. discriminate.
    + intros g Hg.
      rewrite (In_passing_names _ (fun f => passed (snd f df)) g
                 (RULES_names_NoDup sqrt) Hg).
      apply passed_iff.
Qed.

Lemma rule_exception_isolated_witness :
  exists hs,
    run_rules (RULES sqrt9) (enriched one_bar good_pair) [] = Ok hs /\
    run_rules (replace_rule 0 (silent_rule "rule_ema_cross") (RULES sqrt9))
              (enriched one_bar good_pair) [] = Ok hs /\
    ~ In "rule_ema_cross"%string hs /\
    forall g, In g (RULES sqrt9) ->
              (In (fst g) hs <->
               exists m, snd g (enriched one_bar good_pair) = Ok (true, m)).
Proof.
  apply (rule_exception_isolated sqrt9 (enriched one_bar good_pair) 0
           ("rule_ema_cross"%string, rule_ema_cross) IndexError).
  - reflexivity.
  - vm_compute. reflexivity.
Defined.

Lemma cell_last_repeat_S c n : cell_last (repeat c (S n)) = Ok c.
Proof. unfold cell_last. rewrite rev_repeat. reflexivity. Qed.





(** ** Failure isolation across pairs *)

Section Driver.

Variable sqrt : Q -> Q.
Variable fos : string -> option fnum.
Variable ios : string -> option Z.

Lemma scan_pairs_app (w : World) pre rest ev0 :
  scan_pairs sqrt fos ios w pre = (ev0, Ok tt) ->
  scan_pairs sqrt fos ios w (pre ++ rest)
  = (ev0 ++ fst (scan_pairs sqrt fos ios w rest),
     snd (scan_pairs sqrt fos ios w rest)).
Proof.
  revert ev0. induction pre as [|p pre IH]; intros ev0 H; simpl in *.
  - inversion H; subst. simpl. now destruct (scan_pairs sqrt fos ios w rest).
  - destruct (scan_pair sqrt fos ios w p) as [ev [[]|e]]; [|discriminate].
    destruct (scan_pairs sqrt fos ios w pre) as [ev' r] eqn:E.
    inversion H; subst. rewrite (IH ev' eq_refl). simpl.
    now rewrite app_assoc.
Qed.

Lemma scan_pairs_raise (w : World) p post ev e :
  scan_pair sqrt fos ios w p = (ev, Raise e) ->
  scan_pairs sqrt fos ios w (p :: post) = (ev, Raise e).
Proof. intro H. simpl. now rewrite H. Qed.

End Driver.

(** C3 as stated fails.  In [sample_world] the first pair raises during
    enrichment; the second pair, evaluated on its own, is fetched and
    alerts; but the cycle stops at the first pair: it requests the
    candles of [B] only and ends with the exception. *)
Lemma pair_failure_skips_later_pairs :
  scan_pair9 sample_world bad_pair
  = ([Fetch (VScalar (SStr "B"))], Raise AttributeError) /\
  (exists a, scan_pair9 sample_world good_pair
             = ([Fetch (VScalar (SStr "A")); Emit a], Ok tt)) /\
  scan_once9 sample_world
  = ([Fetch (VScalar (SStr "B"))], Raise AttributeError) /\
  ~ In (Fetch (VScalar (SStr "A"))) (fst (scan_once9 sample_world)).
Proof.
  split; [vm_compute; reflexivity|].
  split; [eexists; vm_compute; reflexivity|].
  split; [vm_compute; reflexivity|].
  vm_compute. intros [H|[]]. discriminate.
Qed.

(** C3, amended.  When the evaluation of a pair raises (outside the
    rule functions, whose exceptions the rule loop absorbs), the cycle
    ends there: its trace is that of the pairs before followed by the
    events of the failing pair, whatever pairs come after.  [main] logs
    the error, sleeps and goes on with the next cycle. *)
Theorem pair_failure_ends_cycle sqrt fos ios (w : World)
        pairs pre p post ev0 ev e :
  get_new_solana_pairs w = Ok pairs ->
  firstn PAIRS_PER_SCAN pairs = pre ++ p :: post ->
  scan_pairs sqrt fos ios w pre = (ev0, Ok tt) ->
  scan_pair sqrt fos ios w p = (ev, Raise e) ->
  scan_once sqrt fos ios w = (ev0 ++ ev, Raise e) /\
  forall rest,
    main sqrt fos ios (w :: rest)
    = (ev0 ++ ev) ++ LoopError e :: Sleep :: main sqrt fos ios rest.
Proof.
  intros Hp Hf H0 H1.
  assert (Hs : scan_once sqrt fos ios w = (ev0 ++ ev, Raise e)).
  { unfold scan_once. rewrite Hp.
    destruct pairs as [|q qs]; [destruct pre; discriminate|].
    rewrite Hf, (scan_pairs_app _ _ _ _ _ _ _ H0).
    now rewrite (scan_pairs_raise _ _ _ _ _ post _ _ H1). }
  split; [exact Hs|].
  intro rest. simpl. rewrite Hs. reflexivity.
Qed.

Lemma pair_failure_ends_cycle_witness :
  scan_once9 sample_world
  = ([] ++ [Fetch (VScalar (SStr "B"))], Raise AttributeError) /\
  forall rest,
    main9 (sample_world :: rest)
    = ([] ++ [Fetch (VScalar (SStr "B"))])
        ++ LoopError AttributeError :: Sleep :: main9 rest.
Proof.
  apply (pair_failure_ends_cycle sqrt9 decimal_of_string integer_of_string
           sample_world [bad_pair; good_pair] [] bad_pair [good_pair]).
  - reflexivity.
  - reflexivity.
  - reflexivity.
  - vm_compute. reflexivity.
Defined.

(** ** Bollinger bands *)

Lemma length_rolling_std sqrt n (s : Series) :
  length (rolling_std sqrt n s) = length s.
Proof. apply length_rolling. Qed.

Lemma window_short n (s : Series) i : (i + 1 < n)%nat -> window n s i = None.
Proof.
  intro H. unfold window. apply Nat.ltb_lt in H. now rewrite H.
Qed.

(** C4 as stated fails: on [band_series] the bands at the last bar are
    100 and 104, so the deviation they carry is 2; its square is the
    variance with divisor 19 (4), not the population variance (19/5). *)
Lemma bollinger_is_not_population :
  window 20 band_series 19 = Some band_window /\
  feq (nth 19 (fst (fst (bollinger sqrt9 band_series 20 2))) NaN) (Fin 100) /\
  feq (nth 19 (snd (fst (bollinger sqrt9 band_series 20 2))) NaN) (Fin 104) /\
  feq (nth 19 (snd (bollinger sqrt9 band_series 20 2)) NaN) (Fin 96) /\
  Qvar 1 band_window == 2 * 2 /\
  Qvar 0 band_window == 19 # 5 /\
  ~ Qvar 0 band_window == 2 * 2.
Proof.
  repeat split; try (vm_compute; reflexivity).
  vm_compute. discriminate.
Qed.

(** C4, amended.  [bollinger] returns the rolling mean and the bands
    [mean + k * sd], [mean - k * sd], where [sd] is the square root of
    the window's variance with divisor [n - 1] (the sample standard
    deviation); all three are NaN before [n] points exist. *)
Theorem bollinger_bands sqrt (series : Series) (n : nat) (k : Q) (i : nat) :
  (i < length series)%nat ->
  ((i + 1 < n)%nat ->
   nth i (fst (fst (bollinger sqrt series n k))) NaN = NaN /\
   nth i (snd (fst (bollinger sqrt series n k))) NaN = NaN /\
   nth i (snd (bollinger sqrt series n k)) NaN = NaN) /\
  (forall w, (2 <= n)%nat -> window n series i = Some w ->
   length w = n /\
   Qvar 1 w = Qssd w / inject_Z (Z.of_nat (n - 1)) /\
   nth i (fst (fst (bollinger sqrt series n k))) NaN = Fin (Qmean w) /\
   nth i (snd (fst (bollinger sqrt series n k))) NaN
   = Fin (Qmean w + k * sqrt (Qvar 1 w)) /\
   nth i (snd (bollinger sqrt series n k)) NaN
   = Fin (Qmean w + - (k * sqrt (Qvar 1 w)))).
Proof.
  intro Hi. unfold bollinger. cbn [fst snd].
  assert (Hm : length (rolling_mean n series) = length series)
    by apply length_rolling_mean.
  assert (Hs : length (map (fmul (Fin k)) (rolling_std sqrt n series))
               = length series)
    by (now rewrite length_map, length_rolling_std).
  rewrite !nth_smap2 by lia.
  rewrite nth_map_NaN by (now rewrite length_rolling_std).
  unfold rolling_mean, rolling_std. rewrite !nth_rolling by assumption.
  split.
  - intro Hlt. rewrite (window_short _ _ _ Hlt). now repeat split.
  - intros w Hn Hw. rewrite Hw.
    pose proof (window_length _ _ _ _ Hi Hw) as Hl.
    split; [exact Hl|]. split; [unfold Qvar; now rewrite Hl|].
    unfold std_of.
    destruct (length w <=? 1)%nat eqn:E; [apply Nat.leb_le in E; lia|].
    now repeat split.
Qed.

Lemma bollinger_bands_witness :
  ((19 + 1 < 20)%nat ->
   nth 19 (fst (fst (bollinger sqrt9 band_series 20 2))) NaN = NaN /\
   nth 19 (snd (fst (bollinger sqrt9 band_series 20 2))) NaN = NaN /\
   nth 19 (snd (bollinger sqrt9 band_series 20 2)) NaN = NaN) /\
  (forall w, (2 <= 20)%nat -> window 20 band_series 19 = Some w ->
   length w = 20%nat /\
   Qvar 1 w = Qssd w / inject_Z (Z.of_nat (20 - 1)) /\
   nth 19 (fst (fst (bollinger sqrt9 band_series 20 2))) NaN = Fin (Qmean w) /\
   nth 19 (snd (fst (bollinger sqrt9 band_series 20 2))) NaN
   = Fin (Qmean w + 2 * sqrt9 (Qvar 1 w)) /\
   nth 19 (snd (bollinger sqrt9 band_series 20 2)) NaN
   = Fin (Qmean w + - (2 * sqrt9 (Qvar 1 w)))).
Proof.
  apply (bollinger_bands sqrt9 band_series 20 2 19).
  simpl. lia.
Defined.

(** ** Bollinger squeeze *)

(** C2.  On [spike_bars] (sixty bars) the last thirty bandwidths are
    all valid and their 20th percentile is zero, which the current
    bandwidth exceeds: no squeeze by the stated rule.  The rule instead
    takes the percentile over the bandwidths of every bar whose
    30-window is complete (twelve bars here), finds the current
    bandwidth below it, declares a squeeze and fires. *)
Theorem squeeze_percentile_over_all_windows :
  let df := enriched spike_bars good_pair in
  let bw := bandwidth sqrt9 (col_close df) in
  count_valid (lastn 30 bw) = 30%nat /\
  feq (nanpercentile (dropna (lastn 30 bw)) 20) (Fin 0) /\
  squeeze_last30 bw = Ok false /\
  length (dropna (rolling 30 last_or_zero bw)) = 12%nat /\
  squeeze_of bw = Ok true /\
  rule_boll_breakout sqrt9 df = Ok (true, []).
Proof. vm_compute. repeat split; reflexivity. Qed.

Lemma count_valid_app a b :
  count_valid (a ++ b) = (count_valid a + count_valid b)%nat.
Proof. unfold count_valid. now rewrite filter_app, length_app. Qed.

Lemma count_valid_firstn n (s : Series) :
  (count_valid (firstn n s) <= count_valid s)%nat.
Proof.
  rewrite <- (firstn_skipn n s) at 2. rewrite count_valid_app. lia.
Qed.

Lemma count_valid_skipn n (s : Series) :
  (count_valid (skipn n s) <= count_valid s)%nat.
Proof.
  rewrite <- (firstn_skipn n s) at 2. rewrite count_valid_app. lia.
Qed.

Lemma rolling_count_le n (s : Series) i :
  (rolling_count_at n s i <= count_valid s)%nat.
Proof.
  unfold rolling_count_at.
  etransitivity; [apply count_valid_firstn|apply count_valid_skipn].
Qed.

(** The part of C2 that holds: with fewer than 30 valid bandwidth
    observations the percentile is NaN and the rule does not pass. *)
Lemma boll_inert_below_30_bandwidths sqrt (df : DataFrame) :
  (count_valid (bandwidth sqrt (col_close df)) < 30)%nat ->
  pct20_of (bandwidth sqrt (col_close df)) = NaN /\
  passed (rule_boll_breakout sqrt df) = false.
Proof.
  intro H.
  assert (Hp : pct20_of (bandwidth sqrt (col_close df)) = NaN).
  { unfold pct20_of.
    pose proof (rolling_count_le 30 (bandwidth sqrt (col_close df))
                  (length (bandwidth sqrt (col_close df)) - 1)) as L.
    destruct (30 <=? _)%nat eqn:E; [|reflexivity].
    apply Nat.leb_le in E. lia. }
  split; [exact Hp|].
  unfold rule_boll_breakout.
  destruct (bollinger sqrt (col_close df) 20 2) as [[ma up] dn].
  unfold squeeze_of. rewrite Hp.
  destruct (iloc_last (bandwidth sqrt (col_close df))); [|reflexivity].
  cbn [rbind isnan negb andb].
  destruct (iloc_last (col_close df)); [|reflexivity].
  cbn [rbind]. destruct (iloc_last up); reflexivity.
Qed.

(* ------------------------------------------------------------------ *)
(** ** Exponential moving average *)

Lemma inject_nat_nonneg n : 0 <= inject_Z (Z.of_nat n).
Proof. unfold Qle. simpl. lia. Qed.

Lemma inject_nat_ge_1 n : (1 <= n)%nat -> 1 <= inject_Z (Z.of_nat n).
Proof. intro H. unfold Qle. simpl. lia. Qed.

Lemma ema_alpha_pos n : 0 < ema_alpha n.
Proof.
  pose proof (inject_nat_nonneg n).
  unfold ema_alpha. apply Qlt_shift_div_l; lra.
Qed.

Lemma ema_alpha_le_1 n : (1 <= n)%nat -> ema_alpha n <= 1.
Proof.
  intro H. pose proof (inject_nat_ge_1 n H).
  unfold ema_alpha. apply Qle_shift_div_r; lra.
Qed.

Lemma ewm_loop_finite a w w' (xs : list Q) :
  w == w' ->
  Forall2 feq (ewm_loop a (Some w) 1 (map Fin xs)) (map Fin (ema_rec a w' xs)).
Proof.
  revert w w'. induction xs as [|x t IH]; intros w w' E; simpl.
  - constructor.
  - assert (H : (1 * (1 - a) * w
                 + (if Qeq_bool a (1 # 2) then 1 - 1 * (1 - a) else a) * x)
                / (1 * (1 - a)
                   + (if Qeq_bool a (1 # 2) then 1 - 1 * (1 - a) else a))
                == (1 - a) * w' + a * x).
    { rewrite E. destruct (Qeq_bool a (1 # 2));
        field; intro F; ring_simplify in F; discriminate. }
    constructor; [exact H|]. apply IH. exact H.
Qed.

(** X1.  On a series without missing values [ema] is the textbook
    exponential moving average: it starts at the first value and
    follows [y_t = (1 - alpha) * y_(t-1) + alpha * x_t] with
    [alpha = 2 / (n + 1)] (pandas accepts spans [n >= 1] only). *)
Theorem ema_is_textbook_recurrence (xs : list Q) (n : nat) :
  (1 <= n)%nat ->
  Forall2 feq (ema (map Fin xs) n) (map Fin (ema_textbook n xs)).
Proof.
  intros _. destruct xs as [|x t]; simpl; [constructor|].
  constructor; [simpl; reflexivity|].
  apply (ewm_loop_finite (ema_alpha n) x x t). reflexivity.
Qed.

Lemma ewm_loop_span1 a w (xs : list Q) :
  a == 1 ->
  Forall2 feq (ewm_loop a (Some w) 1 (map Fin xs)) (map Fin xs).
Proof.
  intro Ha. revert w. induction xs as [|x t IH]; intro w; simpl.
  - constructor.
  - constructor; [|apply IH].
    simpl. destruct (Qeq_bool a (1 # 2)) eqn:E.
    + apply Qeq_bool_iff in E. rewrite E in Ha. discriminate.
    + rewrite Ha. field.
Qed.

(** X2.  With span 1 the smoothing factor is 1 and [ema] returns its
    input (a series without missing values). *)
Theorem ema_span_1_is_identity (xs : list Q) :
  Forall2 feq (ema (map Fin xs) 1) (map Fin xs).
Proof.
  destruct xs as [|x t]; simpl; [constructor|].
  constructor; [simpl; reflexivity|].
  apply ewm_loop_span1. reflexivity.
Qed.

Lemma Qmult_le_l_nonneg z x y : 0 <= z -> x <= y -> z * x <= z * y.
Proof.
  intros Hz H. rewrite (Qmult_comm z x), (Qmult_comm z y).
  now apply Qmult_le_compat_r.
Qed.

Lemma convex_within lo hi o a w c :
  0 <= o -> 0 < a -> lo <= w <= hi -> lo <= c <= hi ->
  lo <= (o * w + a * c) / (o + a) <= hi.
Proof.
  intros Ho Ha [Hw1 Hw2] [Hc1 Hc2].
  assert (Hd : 0 < o + a) by lra.
  assert (H1 : o * lo <= o * w) by (apply Qmult_le_l_nonneg; assumption).
  assert (H2 : o * w <= o * hi) by (apply Qmult_le_l_nonneg; assumption).
  assert (H3 : a * lo <= a * c) by (apply Qmult_le_l_nonneg; lra).
  assert (H4 : a * c <= a * hi) by (apply Qmult_le_l_nonneg; lra).
  split.
  - apply Qle_shift_div_l; [assumption|]. lra.
  - apply Qle_shift_div_r; [assumption|]. lra.
Qed.

Lemma ema_is_textbook_recurrence_witness :
  Forall2 feq (ema (map Fin [100; 110; 101]) 9)
              (map Fin (ema_textbook 9 [100; 110; 101])).
Proof.
  apply (ema_is_textbook_recurrence [100; 110; 101] 9). lia.
Defined.

Lemma ewm_loop_within a lo hi weighted old_wt (xs : Series) :
  0 < a -> a <= 1 -> 0 <= old_wt <= 1 ->
  (forall w, weighted = Some w -> lo <= w <= hi) ->
  (forall q, In (Fin q) xs -> lo <= q <= hi) ->
  Forall (within lo hi) (ewm_loop a weighted old_wt xs).
Proof.
  intros Ha Ha1. revert weighted old_wt.
  induction xs as [|cur t IH]; intros weighted old_wt Ho Hw Hx; simpl.
  - constructor.
  - assert (Ht : forall q, In (Fin q) t -> lo <= q <= hi)
      by (intros; apply Hx; now right).
    destruct weighted as [w|].
    + assert (Hw' : lo <= w <= hi) by now apply Hw.
      assert (Ho' : 0 <= old_wt * (1 - a) <= 1).
      { split.
        - apply Qmult_le_0_compat; lra.
        - assert (old_wt * (1 - a) <= 1 * (1 - a))
            by (apply Qmult_le_compat_r; lra).
          lra. }
      destruct (finite_part cur) as [c|] eqn:Ec; cbn [fst snd of_option].
      * assert (Hc : lo <= c <= hi).
        { apply Hx. left. destruct cur; simpl in Ec; try discriminate.
          now inversion Ec. }
        assert (Hv : lo <= (old_wt * (1 - a) * w
                            + (if Qeq_bool a (1 # 2)
                               then 1 - old_wt * (1 - a) else a) * c)
                           / (old_wt * (1 - a)
                              + (if Qeq_bool a (1 # 2)
                                 then 1 - old_wt * (1 - a) else a)) <= hi).
        { destruct (Qeq_bool a (1 # 2)) eqn:E.
          - apply Qeq_bool_iff in E.
            assert (old_wt * (1 - a) <= 1 * (1 - a))
              by (apply Qmult_le_compat_r; lra).
            apply convex_within; try assumption; lra.
          - apply convex_within; try assumption; lra. }
        constructor; [exact Hv|].
        apply IH; [lra| |assumption].
        intros w0 E. inversion E; subst. assumption.
      * constructor; [exact Hw'|].
        apply IH; [assumption| |assumption].
        intros w0 E. inversion E; subst. assumption.
    + destruct cur as [| | |c]; simpl;
        try (constructor; [exact I|];
             apply IH; [assumption| |assumption]; discriminate).
      assert (Hc : lo <= c <= hi) by (apply Hx; now left).
      constructor; [exact Hc|].
      apply IH; [assumption| |assumption].
      intros w0 E. inversion E; subst. assumption.
Qed.

(** X3.  [ema] never leaves the range of its input: when every number
    of the series lies in [lo, hi], so does every value of the average
    (missing inputs included: they carry the average forward); the
    average is never infinite. *)
Theorem ema_within_input_range (series : Series) (n : nat) lo hi :
  (1 <= n)%nat ->
  (forall q, In (Fin q) series -> lo <= q <= hi) ->
  Forall (within lo hi) (ema series n).
Proof.
  intros Hn Hx. unfold ema.
  destruct series as [|x t]; [constructor|].
  assert (Ht : forall q, In (Fin q) t -> lo <= q <= hi)
    by (intros; apply Hx; now right).
  constructor.
  - destruct x; simpl; try exact I. apply Hx. now left.
  - apply ewm_loop_within; try assumption.
    + apply ema_alpha_pos.
    + now apply ema_alpha_le_1.
    + lra.
    + intros w E. destruct x; simpl in E; try discriminate.
      inversion E; subst. apply Hx. now left.
Qed.

Lemma ema_within_input_range_witness :
  Forall (within 100 110) (ema [Fin 100; Fin 110; NaN; PInf; Fin 101] 9).
Proof.
  apply (ema_within_input_range [Fin 100; Fin 110; NaN; PInf; Fin 101] 9).
  - lia.
  - intros q H. simpl in H.
    destruct H as [H|[H|[H|[H|[H|[]]]]]]; inversion H; subst;
      split; unfold Qle; simpl; lia.
Defined.

(* ------------------------------------------------------------------ *)
(** ** On-balance volume *)

Lemma obv_unfold (close volume : Series) :
  obv close volume = cumsum (obv_flow close volume).
Proof. reflexivity. Qed.

Lemma length_cumsum_from acc (s : Series) :
  length (cumsum_from acc s) = length s.
Proof.
  revert acc. induction s as [|x t IH]; intro acc; simpl; [reflexivity|].
  now rewrite IH.
Qed.

Lemma length_cumsum (s : Series) : length (cumsum s) = length s.
Proof.
  destruct s as [|x t]; simpl; [reflexivity|]. now rewrite length_cumsum_from.
Qed.

Lemma nth_cumsum_from acc (s : Series) i :
  (i < length s)%nat ->
  nth i (cumsum_from acc s) NaN
  = fadd (nth i (acc :: cumsum_from acc s) NaN) (nth i s NaN).
Proof.
  revert acc i. induction s as [|x t IH]; intros acc i Hi; simpl in Hi; [lia|].
  destruct i as [|i]; [reflexivity|].
  simpl. rewrite IH by lia. reflexivity.
Qed.

Lemma nth_cumsum_S (s : Series) i :
  (S i < length s)%nat ->
  nth (S i) (cumsum s) NaN = fadd (nth i (cumsum s) NaN) (nth (S i) s NaN).
Proof.
  destruct s as [|x t]; simpl; intro Hi; [lia|].
  rewrite nth_cumsum_from by lia. reflexivity.
Qed.

Lemma length_obv_flow (close volume : Series) :
  length (obv_flow close volume) = Nat.min (length close) (length volume).
Proof.
  unfold obv_flow.
  now rewrite length_map, length_smap2, !length_map, length_diff.
Qed.

Lemma nth_obv_flow (close volume : Series) i :
  (i < length close)%nat -> (i < length volume)%nat ->
  nth i (obv_flow close volume) NaN
  = fillna0 (fmul (fsign (fillna0 (nth i (diff close) NaN)))
                  (nth i volume NaN)).
Proof.
  intros Hc Hv. unfold obv_flow.
  rewrite nth_map_NaN by (rewrite length_smap2, !length_map, length_diff; lia).
  rewrite nth_smap2 by (rewrite ?length_map, ?length_diff; lia).
  rewrite !nth_map_NaN by (rewrite ?length_map, length_diff; lia).
  reflexivity.
Qed.

Lemma fmul_zero_filled v : is_zero (fillna0 (fmul (Fin 0) v)).
Proof.
  destruct v; simpl; try reflexivity; unfold is_zero; simpl; ring.
Qed.

Lemma cumsum_from_zero acc (s : Series) :
  is_zero acc -> Forall is_zero s -> Forall is_zero (cumsum_from acc s).
Proof.
  intros Ha Hs. revert acc Ha.
  induction Hs as [|x t Hx Ht IH]; intros acc Ha; simpl; constructor.
  - destruct acc, x; simpl in *; try contradiction.
    unfold is_zero in *. simpl in *. lra.
  - apply IH. destruct acc, x; simpl in *; try contradiction.
    unfold is_zero in *. simpl in *. lra.
Qed.

Lemma cumsum_zero (s : Series) : Forall is_zero s -> Forall is_zero (cumsum s).
Proof.
  intro H. destruct H as [|x t Hx Ht]; simpl; constructor; [assumption|].
  now apply cumsum_from_zero.
Qed.

Lemma Forall_nth_NaN (P : fnum -> Prop) (s : Series) :
  (forall i, (i < length s)%nat -> P (nth i s NaN)) -> Forall P s.
Proof.
  intro H. apply Forall_forall. intros x Hx.
  destruct (In_nth _ _ NaN Hx) as [i [Hi E]]. rewrite <- E. now apply H.
Qed.

Lemma sign_of_flat_diff n c i :
  (i < n)%nat ->
  fsign (fillna0 (nth i (diff (repeat (Fin c) n)) NaN)) = Fin 0.
Proof.
  intro Hi. rewrite nth_diff by (now rewrite repeat_length).
  rewrite nth_repeat_lt by assumption.
  destruct (i <? 1)%nat; [reflexivity|].
  rewrite nth_repeat_lt by lia. simpl.
  assert (E : c + - c == 0) by ring.
  assert (E1 : Qltb (c + - c) 0 = false) by (apply Qltb_ge; lra).
  assert (E2 : Qeq_bool (c + - c) 0 = true) by now apply Qeq_bool_iff.
  now rewrite E1, E2.
Qed.

Lemma obv_flat_zero (c : Q) (n : nat) (volume : Series) :
  Forall is_zero (obv (repeat (Fin c) n) volume).
Proof.
  rewrite obv_unfold. apply cumsum_zero. apply Forall_nth_NaN.
  intros i Hi. rewrite length_obv_flow, repeat_length in Hi.
  rewrite nth_obv_flow by (rewrite ?repeat_length; lia).
  rewrite sign_of_flat_diff by lia. apply fmul_zero_filled.
Qed.

(** X4.  On a flat price series on-balance volume is zero at every
    bar, whatever the volumes (missing and infinite ones included). *)
Theorem obv_flat_price_is_zero (c : Q) (n : nat) (volume : Series) :
  Forall is_zero (obv (repeat (Fin c) n) volume).
Proof. apply obv_flat_zero. Qed.



(* ------------------------------------------------------------------ *)
(** ** Bollinger bands: shape *)

Lemma nth_bollinger sqrt (series : Series) n k i :
  (i < length series)%nat ->
  nth i (snd (fst (bollinger sqrt series n k))) NaN
  = fadd (nth i (rolling_mean n series) NaN)
         (fmul (Fin k) (nth i (rolling_std sqrt n series) NaN)) /\
  nth i (snd (bollinger sqrt series n k)) NaN
  = fsub (nth i (rolling_mean n series) NaN)
         (fmul (Fin k) (nth i (rolling_std sqrt n series) NaN)).
Proof.
  intro Hi. unfold bollinger. cbn [fst snd].
  rewrite !nth_smap2
    by (rewrite ?length_map, ?length_rolling_std, ?length_rolling_mean; lia).
  rewrite nth_map_NaN by (now rewrite length_rolling_std).
  split; reflexivity.
Qed.

Lemma fadd_Fin x y u :
  fadd x y = Fin u -> exists a b, x = Fin a /\ y = Fin b /\ u = a + b.
Proof.
  destruct x, y; simpl; try discriminate.
  intro H. inversion H. now eexists _, _.
Qed.

Lemma fmul_Fin k y t :
  fmul (Fin k) y = Fin t -> exists b, y = Fin b /\ t = k * b.
Proof.
  destruct y; simpl; unfold inf_scaled; try discriminate.
  - destruct (Qeq_bool k 0); [discriminate|].
    destruct (xorb true (Qltb k 0)); discriminate.
  - destruct (Qeq_bool k 0); [discriminate|].
    destruct (xorb false (Qltb k 0)); discriminate.
  - intro H. inversion H. now eexists.
Qed.

(** X6.  Wherever the upper band is a number, so are the middle and the
    lower band, and the bands are symmetric around the middle:
    [upper - middle = middle - lower].  When moreover [k >= 0] and the
    square root is non-negative, [lower <= middle <= upper]. *)
Theorem bollinger_symmetric sqrt (series : Series) n k i u :
  nth i (snd (fst (bollinger sqrt series n k))) NaN = Fin u ->
  exists m d,
    nth i (fst (fst (bollinger sqrt series n k))) NaN = Fin m /\
    nth i (snd (bollinger sqrt series n k)) NaN = Fin d /\
    u - m == m - d /\
    (0 <= k -> (forall x, 0 <= sqrt x) -> d <= m <= u).
Proof.
  intro Hu.
  assert (Hi : (i < length series)%nat).
  { destruct (Nat.lt_ge_cases i (length series)) as [L|L]; [assumption|].
    rewrite nth_overflow in Hu; [discriminate|].
    unfold bollinger. cbn [fst snd].
    rewrite length_smap2, length_map, length_rolling_std, length_rolling_mean.
    lia. }
  destruct (nth_bollinger sqrt series n k i Hi) as [Eu Ed].
  rewrite Eu in Hu. rewrite Ed. clear Eu Ed.
  change (fst (fst (bollinger sqrt series n k))) with (rolling_mean n series).
  destruct (fadd_Fin _ _ _ Hu) as [m [t [Em [Et Eu]]]].
  destruct (fmul_Fin _ _ _ Et) as [b [Eb Etb]].
  rewrite Em, Eb. simpl.
  exists m, (m + - (k * b)). subst u t.
  repeat split; try reflexivity.
  - ring.
  - assert (Hb : 0 <= b).
    { unfold rolling_std in Eb. rewrite nth_rolling in Eb by assumption.
      destruct (window n series i) as [w|]; [|discriminate].
      unfold std_of in Eb. destruct (length w <=? 1)%nat; [discriminate|].
      inversion Eb. apply H0. }
    pose proof (Qmult_le_0_compat _ _ H Hb). lra.
  - assert (Hb : 0 <= b).
    { unfold rolling_std in Eb. rewrite nth_rolling in Eb by assumption.
      destruct (window n series i) as [w|]; [|discriminate].
      unfold std_of in Eb. destruct (length w <=? 1)%nat; [discriminate|].
      inversion Eb. apply H0. }
    pose proof (Qmult_le_0_compat _ _ H Hb). lra.
Qed.

Lemma bollinger_symmetric_witness :
  exists m d,
    nth 19 (fst (fst (bollinger sqrt9 band_series 20 2))) NaN = Fin m /\
    nth 19 (snd (bollinger sqrt9 band_series 20 2)) NaN = Fin d /\
    (2080000000000 # 20000000000) - m == m - d /\
    (0 <= 2 -> (forall x, 0 <= sqrt9 x) -> d <= m <= 2080000000000 # 20000000000).
Proof.
  apply (bollinger_symmetric sqrt9 band_series 20 2 19).
  vm_compute. reflexivity.
Defined.

(* ------------------------------------------------------------------ *)
(** ** RSI reclaim *)

Lemma rsi_point_above_50 g l :
  nonneg_or_nan g -> pos_or_nan l ->
  fgt (rsi_point g l) (Fin 50) = flt l g.
Proof.
  destruct g as [| | |a]; simpl; try tauto; intro Ha.
  - intros _. now destruct l.
  - destruct l as [| | |b]; simpl; try tauto; intro Hb.
    unfold rsi_point, fgt. simpl.
    assert (Eb : Qeq_bool b 0 = false).
    { apply Qeq_bool_false. intro E. rewrite E in Hb. discriminate. }
    rewrite Eb. simpl.
    assert (Hr : 0 <= a / b) by (apply Qle_shift_div_l; [assumption|lra]).
    assert (Ed : Qeq_bool (1 + a / b) 0 = false)
      by (apply Qeq_bool_false; intro E; lra).
    rewrite Ed. simpl.
    assert (Hd : 0 < 1 + a / b) by lra.
    destruct (Qlt_le_dec b a) as [L|L].
    + assert (H1 : 1 < a / b) by (apply Qlt_shift_div_l; [assumption|lra]).
      assert (H2 : 100 / (1 + a / b) < 50)
        by (apply Qlt_shift_div_r; [assumption|lra]).
      assert (E1 : Qltb 50 (100 + - (100 / (1 + a / b))) = true)
        by (apply Qltb_lt; lra).
      assert (E2 : Qltb b a = true) by now apply Qltb_lt.
      now rewrite E1, E2.
    + assert (H1 : a / b <= 1) by (apply Qle_shift_div_r; [assumption|lra]).
      assert (H2 : 50 <= 100 / (1 + a / b))
        by (apply Qle_shift_div_l; [assumption|lra]).
      assert (E1 : Qltb 50 (100 + - (100 / (1 + a / b))) = false)
        by (apply Qltb_ge; lra).
      assert (E2 : Qltb b a = false) by now apply Qltb_ge.
      now rewrite E1, E2.
Qed.

Lemma rsi_reclaim_warm (df : DataFrame) :
  (0 < len df)%nat ->
  exists r,
    rule_rsi_reclaim df
    = Ok (flt (nth (len df - 1) (rsi_avg_loss (col_close df) 14) NaN)
              (nth (len df - 1) (rsi_avg_gain (col_close df) 14) NaN),
          [("rsi"%string, r)]).
Proof.
  intro H.
  assert (Hl : length (col_close df) = len df)
    by (unfold col_close, len; now rewrite length_map).
  unfold rule_rsi_reclaim.
  rewrite iloc_last_nth by (rewrite length_rsi; lia).
  rewrite length_rsi, Hl. cbn [rbind].
  rewrite nth_rsi by lia.
  rewrite rsi_point_above_50.
  - eexists. reflexivity.
  - apply rsi_avg_gain_spec. lia.
  - apply rsi_avg_loss_spec. lia.
Qed.

(* ------------------------------------------------------------------ *)
(** ** Market-cap rule on a column that varies *)

Lemma isna_all_false_of_Fin (m : Series) i q :
  nth i m NaN = Fin q -> isna_all m = false.
Proof.
  intro H. destruct (isna_all m) eqn:E; [|reflexivity].
  unfold isna_all in E. rewrite forallb_forall in E.
  destruct (Nat.lt_ge_cases i (length m)) as [L|L].
  - specialize (E _ (nth_In m NaN L)). rewrite H in E. discriminate.
  - rewrite nth_overflow in H by assumption. discriminate.
Qed.

(** X8.  On a frame whose market-cap column holds numbers at the last
    bar ([a]) and five bars earlier ([b > 0]), [rule_mcap_roc] returns;
    it passes when [a] is at least 106 percent of [b] and does not
    pass when [a] is at most 104 percent of [b]. *)
Theorem mcap_roc_threshold (df : DataFrame) (m : Series) a b :
  mcap df = Some m ->
  (ROC_WINDOW < length m)%nat ->
  nth (length m - 1) m NaN = Fin a ->
  nth (length m - 1 - ROC_WINDOW) m NaN = Fin b ->
  0 < b ->
  exists ok roc,
    rule_mcap_roc df = Ok (ok, [("roc%"%string, roc)]) /\
    ((106 # 100) * b <= a -> ok = true) /\
    (a <= (104 # 100) * b -> ok = false).
Proof.
  intros Hm Hlen Ha Hb Hpos.
  unfold rule_mcap_roc. rewrite Hm.
  rewrite (isna_all_false_of_Fin _ _ _ Ha).
  rewrite pct_change_last by lia. cbn [rbind].
  replace (length m - 1 <? ROC_WINDOW)%nat with false
    by (symmetry; apply Nat.ltb_ge; lia).
  rewrite Ha, Hb.
  assert (Eb : Qeq_bool b 0 = false) by (apply Qeq_bool_false; intro; lra).
  simpl fdiv. rewrite Eb. simpl.
  eexists _, _. split; [reflexivity|].
  unfold fgt. simpl. split; intro H.
  - assert (H1 : 106 # 100 <= a / b)
      by (apply Qle_shift_div_l; assumption).
    apply Qltb_lt. lra.
  - assert (H1 : a / b <= 104 # 100)
      by (apply Qle_shift_div_r; assumption).
    apply Qltb_ge. lra.
Qed.

Lemma mcap_roc_threshold_witness :
  exists ok roc,
    rule_mcap_roc rising_mcap_frame = Ok (ok, [("roc%"%string, roc)]) /\
    ((106 # 100) * 100 <= 108 -> ok = true) /\
    (108 <= (104 # 100) * 100 -> ok = false).
Proof.
  apply (mcap_roc_threshold rising_mcap_frame
           (map Fin [100; 100; 101; 102; 104; 106; 108]) 108 100).
  - reflexivity.
  - simpl. unfold ROC_WINDOW. lia.
  - reflexivity.
  - reflexivity.
  - reflexivity.
Defined.

(* ------------------------------------------------------------------ *)
(** ** Guard: when a pair is admitted *)

(** X9.  On an enriched, non-empty series with a numeric liquidity [x]
    the guard never raises, and it rejects the series when [x] is
    below [MIN_LIQ_USD], when the series has fewer than 20 bars, and
    when one of the last 20 USD volumes is missing or infinite. *)
Theorem guards_rejects_thin_series fos (df0 : DataFrame) (pair : Pair) df x :
  enrich_with_snapshot fos df0 pair = Ok df ->
  (0 < len df0)%nat ->
  liquidityUsd df = Some (repeat (CNum (Fin x)) (len df0)) ->
  exists vu,
    volumeUsd df = Some vu /\ length vu = len df0 /\
    (guards df = Ok true \/ guards df = Ok false) /\
    (x < MIN_LIQ_USD -> guards df = Ok false) /\
    ((len df0 < 20)%nat -> guards df = Ok false) /\
    (window 20 vu (len df0 - 1) = None -> guards df = Ok false).
Proof.
  intros He Hn Hl.
  destruct (enrich_ok _ _ _ _ He) as [_ [_ [[px Hv] _]]].
  exists (map (fun v => fmul v px) (col_volume df0)).
  assert (Hlen : length (map (fun v => fmul v px) (col_volume df0)) = len df0)
    by (unfold col_volume, len; now rewrite !length_map).
  split; [exact Hv|]. split; [exact Hlen|].
  assert (Hg : guards df
               = Ok (fge (match window 20 (map (fun v => fmul v px)
                                               (col_volume df0))
                                       (len df0 - 1) with
                          | Some w => Fin (Qmean w)
                          | None => NaN
                          end) (Fin MIN_ABS_VOLUME_USD)
                     && Qle_bool MIN_LIQ_USD x)).
  { unfold guards. rewrite Hv, Hl.
    rewrite iloc_last_nth by (rewrite length_rolling_mean; lia).
    rewrite length_rolling_mean, Hlen. cbn [rbind].
    unfold rolling_mean. rewrite nth_rolling by lia.
    destruct (len df0) as [|k]; [lia|].
    rewrite cell_last_repeat_S. reflexivity. }
  rewrite Hg.
  assert (Hw : window 20 (map (fun v => fmul v px) (col_volume df0))
                      (len df0 - 1) = None ->
               Ok (fge match window 20 (map (fun v => fmul v px)
                                            (col_volume df0))
                                    (len df0 - 1) with
                       | Some w => Fin (Qmean w)
                       | None => NaN
                       end (Fin MIN_ABS_VOLUME_USD)
                   && Qle_bool MIN_LIQ_USD x) = @Ok bool false).
  { intro E. rewrite E. reflexivity. }
  split; [destruct (_ && _); [now left|now right]|].
  split; [|split].
  - intro Hx.
    assert (E : Qle_bool MIN_LIQ_USD x = false).
    { apply not_true_is_false. intro F. apply Qle_bool_iff in F. lra. }
    rewrite E. now rewrite andb_false_r.
  - intro Hs. apply Hw. unfold window.
    replace (len df0 - 1 + 1 <? 20)%nat with true
      by (symmetry; apply Nat.ltb_lt; lia).
    reflexivity.
  - exact Hw.
Qed.

Lemma guards_rejects_thin_series_witness :
  exists vu,
    volumeUsd (enriched uptick_bars (pair_with_liquidity 29999)) = Some vu /\
    length vu = len (df_of_candles uptick_bars) /\
    (guards (enriched uptick_bars (pair_with_liquidity 29999)) = Ok true \/
     guards (enriched uptick_bars (pair_with_liquidity 29999)) = Ok false) /\
    (29999 < MIN_LIQ_USD ->
     guards (enriched uptick_bars (pair_with_liquidity 29999)) = Ok false) /\
    ((len (df_of_candles uptick_bars) < 20)%nat ->
     guards (enriched uptick_bars (pair_with_liquidity 29999)) = Ok false) /\
    (window 20 vu (len (df_of_candles uptick_bars) - 1) = None ->
     guards (enriched uptick_bars (pair_with_liquidity 29999)) = Ok false).
Proof.
  apply (guards_rejects_thin_series decimal_of_string
           (df_of_candles uptick_bars) (pair_with_liquidity 29999)
           (enriched uptick_bars (pair_with_liquidity 29999)) 29999).
  - vm_compute. reflexivity.
  - vm_compute. lia.
  - vm_compute. reflexivity.
Defined.

(* ------------------------------------------------------------------ *)
(** ** Enrichment: failure and missing data *)

Lemma guards_zero_liquidity (df : DataFrame) vu n :
  volumeUsd df = Some vu -> length vu = S n ->
  liquidityUsd df = Some (repeat (CNum (Fin 0)) (S n)) ->
  guards df = Ok false.
Proof.
  intros Hv Hn Hl. unfold guards. rewrite Hv, Hl.
  rewrite iloc_last_nth by (rewrite length_rolling_mean; lia).
  cbn [rbind]. rewrite cell_last_repeat_S. cbn [rbind cell_ge].
  now rewrite andb_false_r.
Qed.

(** X11.  A pair whose snapshot has no [liquidity] field is never
    admitted: enrichment succeeds with liquidity 0 and the guard
    rejects, whatever the volumes. *)
Theorem no_liquidity_is_rejected fos (df0 : DataFrame) (pair : Pair) :
  dict_get pair "liquidity" = None ->
  (0 < len df0)%nat ->
  exists df, enrich_with_snapshot fos df0 pair = Ok df /\
             liquidityUsd df = Some (repeat (CNum (Fin 0)) (len df0)) /\
             guards df = Ok false.
Proof.
  intros Hl Hn. unfold enrich_with_snapshot, get. rewrite Hl. simpl.
  eexists. split; [reflexivity|]. split; [reflexivity|].
  destruct (len df0) as [|n] eqn:E; [lia|].
  eapply guards_zero_liquidity with (n := n).
  - reflexivity.
  - unfold col_volume. rewrite !length_map. exact E.
  - reflexivity.
Qed.

Lemma no_liquidity_is_rejected_witness :
  exists df,
    enrich_with_snapshot decimal_of_string (df_of_candles uptick_bars)
                         no_liquidity_pair = Ok df /\
    liquidityUsd df
    = Some (repeat (CNum (Fin 0)) (len (df_of_candles uptick_bars))) /\
    guards df = Ok false.
Proof.
  apply (no_liquidity_is_rejected decimal_of_string
           (df_of_candles uptick_bars) no_liquidity_pair).
  - reflexivity.
  - vm_compute. lia.
Defined.

(** X12.  When the snapshot gives the liquidity figure as a non-empty
    string, enrichment succeeds but the guard raises TypeError on the
    comparison with [MIN_LIQ_USD]. *)
Theorem string_liquidity_raises fos (df0 : DataFrame) (pair : Pair) d s :
  dict_get pair "liquidity" = Some (VDict d) ->
  dict_get d "usd" = Some (SStr s) ->
  s <> ""%string ->
  (0 < len df0)%nat ->
  exists df, enrich_with_snapshot fos df0 pair = Ok df /\
             guards df = Raise TypeError.
Proof.
  intros Hl Hu Hs Hn. unfold enrich_with_snapshot, get. rewrite Hl.
  cbn [attr_get rbind]. unfold get. rewrite Hu.
  assert (Et : scalar_truthy (SStr s) = true).
  { simpl. destruct (String.eqb s "") eqn:E; [|reflexivity].
    apply String.eqb_eq in E. contradiction. }
  unfold scalar_or at 1. rewrite Et. cbn [cell_of_scalar].
  eexists. split; [reflexivity|].
  unfold guards. cbn [volumeUsd liquidityUsd].
  rewrite iloc_last_nth
    by (rewrite length_rolling_mean; unfold col_volume;
        rewrite !length_map; exact Hn).
  cbn [rbind]. destruct (len df0) as [|n]; [lia|].
  rewrite cell_last_repeat_S. reflexivity.
Qed.

Lemma string_liquidity_raises_witness :
  exists df,
    enrich_with_snapshot decimal_of_string (df_of_candles uptick_bars)
                         string_liquidity_pair = Ok df /\
    guards df = Raise TypeError.
Proof.
  apply (string_liquidity_raises decimal_of_string
           (df_of_candles uptick_bars) string_liquidity_pair
           [("usd"%string, SStr "50000")] "50000").
  - reflexivity.
  - reflexivity.
  - discriminate.
  - vm_compute. lia.
Defined.

(* ------------------------------------------------------------------ *)
(** ** Warm-up of the rules *)

Lemma count_valid_le_length (s : Series) : (count_valid s <= length s)%nat.
Proof. unfold count_valid. apply filter_length_le. Qed.

Lemma count_valid_leading_nan (s : Series) k :
  (forall i, (i < k)%nat -> nth i s NaN = NaN) ->
  (count_valid s <= length s - k)%nat.
Proof.
  revert k. induction s as [|x t IH]; intros k H;
    [unfold count_valid; simpl; lia|].
  destruct k as [|k].
  - pose proof (count_valid_le_length (x :: t)). lia.
  - assert (Hx : x = NaN) by (apply (H 0%nat); lia). subst x.
    change (count_valid (NaN :: t)) with (count_valid t).
    simpl length. specialize (IH k).
    assert (Ht : forall i, (i < k)%nat -> nth i t NaN = NaN)
      by (intros i Hi; apply (H (S i)); lia).
    specialize (IH Ht). lia.
Qed.

Lemma length_bandwidth sqrt (c : Series) : length (bandwidth sqrt c) = length c.
Proof.
  unfold bandwidth, bollinger.
  rewrite !length_smap2, !length_map, length_rolling_std, length_rolling_mean.
  lia.
Qed.

Lemma nth_bandwidth_warmup sqrt (c : Series) i :
  (i + 1 < 20)%nat -> nth i (bandwidth sqrt c) NaN = NaN.
Proof.
  intro Hi.
  destruct (Nat.lt_ge_cases i (length c)) as [L|L].
  - unfold bandwidth, bollinger.
    rewrite nth_smap2
      by (rewrite ?length_smap2, ?length_map, ?length_rolling_std,
            ?length_rolling_mean; lia).
    unfold rolling_mean at 3. rewrite nth_rolling by assumption.
    rewrite window_short by assumption.
    now destruct (nth i _ NaN).
  - apply nth_overflow. now rewrite length_bandwidth.
Qed.

Lemma iloc_prev_nth (s : Series) :
  (2 <= length s)%nat -> iloc_prev s = Ok (nth (length s - 2) s NaN).
Proof.
  intro H. unfold iloc_prev.
  pose proof (rev_nth s NaN (n := 1)) as R.
  rewrite <- R by lia.
  pose proof (length_rev s) as Lr.
  destruct (rev s) as [|y [|x r]]; simpl in Lr; try lia. reflexivity.
Qed.

Lemma iloc_prev_short (s : Series) :
  (length s < 2)%nat -> iloc_prev s = Raise IndexError.
Proof.
  intro H. unfold iloc_prev.
  pose proof (length_rev s) as Lr.
  destruct (rev s) as [|y [|x r]]; simpl in Lr; try reflexivity. lia.
Qed.

Lemma rolling_max_warmup (s : Series) :
  (2 <= length s < 51)%nat -> iloc_prev (rolling_max 50 s) = Ok NaN.
Proof.
  intro H. unfold rolling_max.
  rewrite iloc_prev_nth by (rewrite length_rolling; lia).
  rewrite length_rolling, nth_rolling by lia.
  rewrite window_short by lia. reflexivity.
Qed.

Lemma all_finite_nan_head w : all_finite (NaN :: w) = None.
Proof. reflexivity. Qed.

Lemma rsi_avg_gain_warmup (s : Series) i :
  (i < length s)%nat -> (i < 14)%nat -> nth i (rsi_avg_gain s 14) NaN = NaN.
Proof.
  intros Hi H14. unfold rsi_avg_gain, rolling_mean.
  rewrite nth_rolling by (now rewrite length_map, length_diff).
  unfold window. destruct (i + 1 <? 14)%nat eqn:E; [reflexivity|].
  apply Nat.ltb_ge in E. replace (i + 1 - 14)%nat with 0%nat by lia.
  simpl skipn.
  destruct s as [|x t]; [simpl in Hi; lia|].
  unfold diff, shift. simpl.
  replace (fsub x NaN) with NaN by (now destruct x).
  reflexivity.
Qed.

(** X13.  Warm-up of the rules: [rule_rsi_reclaim] cannot pass on fewer
    than 15 bars, [rule_boll_breakout] on fewer than 49,
    [rule_obv_leads] on fewer than 51 and [rule_mcap_roc] on a
    market-cap column of fewer than 6 bars.  The 60 bars [scan_once]
    requires are past every warm-up. *)
Theorem rules_warm_up sqrt (df : DataFrame) :
  ((len df < 15)%nat -> passed (rule_rsi_reclaim df) = false) /\
  ((len df < 49)%nat -> passed (rule_boll_breakout sqrt df) = false) /\
  ((len df < 51)%nat -> passed (rule_obv_leads df) = false) /\
  (forall m, mcap df = Some m -> (length m < 6)%nat ->
             passed (rule_mcap_roc df) = false).
Proof.
  assert (Hl : length (col_close df) = len df)
    by (unfold col_close, len; now rewrite length_map).
  assert (Hv : length (col_volume df) = len df)
    by (unfold col_volume, len; now rewrite length_map).
  repeat split.
  - intro H. destruct (len df) as [|k] eqn:E.
    + unfold rule_rsi_reclaim, iloc_last.
      assert (N : rsi (col_close df) 14 = [])
        by (apply length_zero_iff_nil; now rewrite length_rsi).
      now rewrite N.
    + destruct (rsi_reclaim_warm df) as [r Hr]; [lia|].
      rewrite Hr. rewrite E.
      rewrite rsi_avg_gain_warmup by lia.
      destruct (nth (S k - 1) (rsi_avg_loss (col_close df) 14) NaN);
        reflexivity.
  - intro H. apply boll_inert_below_30_bandwidths.
    pose proof (count_valid_leading_nan (bandwidth sqrt (col_close df)) 19) as C.
    rewrite length_bandwidth, Hl in C.
    assert (C' : (count_valid (bandwidth sqrt (col_close df)) <= len df - 19)%nat).
    { apply C. intros i Hi. apply nth_bandwidth_warmup. lia. }
    lia.
  - intro H. unfold rule_obv_leads.
    destruct (Nat.lt_ge_cases (len df) 2) as [S|S].
    + destruct (iloc_last (col_close df)); [|reflexivity]. cbn [rbind].
      rewrite iloc_prev_short
        by (unfold rolling_max; rewrite length_rolling; lia).
      reflexivity.
    + rewrite iloc_last_nth by lia. cbn [rbind].
      rewrite rolling_max_warmup by lia. cbn [rbind].
      assert (Lo : length (obv (col_close df) (col_volume df)) = len df).
      { rewrite obv_unfold, length_cumsum, length_obv_flow. lia. }
      rewrite iloc_last_nth by lia. cbn [rbind].
      rewrite rolling_max_warmup by lia. cbn [rbind].
      unfold fgt. now destruct (nth _ (obv _ _) NaN).
  - intros m Hm H. unfold rule_mcap_roc. rewrite Hm.
    destruct (isna_all m); [reflexivity|].
    destruct m as [|x t] eqn:Em; [reflexivity|].
    rewrite pct_change_last by (simpl; lia). cbn [rbind].
    replace (length (x :: t) - 1 <? ROC_WINDOW)%nat with true
      by (symmetry; apply Nat.ltb_lt; unfold ROC_WINDOW; simpl in *; lia).
    replace (fdiv (nth (length (x :: t) - 1) (x :: t) NaN) NaN) with NaN
      by (now destruct (nth _ _ NaN)).
    reflexivity.
Qed.

(* ------------------------------------------------------------------ *)
(** ** A flat market gives no signal *)

Lemma ewm_loop_flat a w c n :
  w == c ->
  Forall (fun x => exists q, x = Fin q /\ q == c)
         (ewm_loop a (Some w) 1 (repeat (Fin c) n)).
Proof.
  revert w. induction n as [|n IH]; intros w E; simpl; constructor.
  - eexists. split; [reflexivity|].
    rewrite E. destruct (Qeq_bool a (1 # 2));
      field; intro F; ring_simplify in F; discriminate.
  - apply IH. rewrite E. destruct (Qeq_bool a (1 # 2));
      field; intro F; ring_simplify in F; discriminate.
Qed.

Lemma ema_flat c n k :
  Forall (fun x => exists q, x = Fin q /\ q == c) (ema (repeat (Fin c) n) k).
Proof.
  destruct n as [|n]; simpl; constructor.
  - exists c. split; reflexivity.
  - apply ewm_loop_flat. reflexivity.
Qed.

Lemma iloc_last_In (s : Series) x : iloc_last s = Ok x -> In x s.
Proof.
  unfold iloc_last. intro H. apply in_rev.
  destruct (rev s) as [|y r]; [discriminate|]. inversion H. now left.
Qed.

Lemma iloc_prev_In (s : Series) x : iloc_prev s = Ok x -> In x s.
Proof.
  unfold iloc_prev. intro H. apply in_rev.
  destruct (rev s) as [|y [|z r]]; try discriminate.
  inversion H. right. now left.
Qed.

Lemma ema_cross_flag_flat (df : DataFrame) c b :
  col_close df = repeat (Fin c) (len df) ->
  ema_cross_flag df = Ok b -> b = false.
Proof.
  intros Hc. unfold ema_cross_flag. rewrite Hc.
  destruct (iloc_prev (ema _ 9)) as [a2|] eqn:E1; cbn [rbind]; [|discriminate].
  destruct (iloc_prev (ema _ 21)) as [b2|] eqn:E2; cbn [rbind]; [|discriminate].
  destruct (iloc_last (ema _ 9)) as [a1|]; cbn [rbind]; [|discriminate].
  destruct (iloc_last (ema _ 21)) as [b1|]; cbn [rbind]; [|discriminate].
  intro H. inversion H.
  pose proof (ema_flat c (len df) 9) as F9.
  pose proof (ema_flat c (len df) 21) as F21.
  rewrite Forall_forall in F9, F21.
  destruct (F9 _ (iloc_prev_In _ _ E1)) as [q1 [-> Q1]].
  destruct (F21 _ (iloc_prev_In _ _ E2)) as [q2 [-> Q2]].
  assert (L : Qltb q1 q2 = false) by (apply Qltb_ge; lra).
  simpl. now rewrite L.
Qed.

Lemma rule_ema_cross_flat (df : DataFrame) c :
  col_close df = repeat (Fin c) (len df) ->
  passed (rule_ema_cross df) = false.
Proof.
  intro Hc. unfold rule_ema_cross.
  destruct (column (volumeUsd df)); cbn [rbind]; [|reflexivity].
  destruct (ema_cross_flag df) as [b|] eqn:E; cbn [rbind]; [|reflexivity].
  rewrite (ema_cross_flag_flat df c b Hc E).
  destruct (ema_vavg _); cbn [rbind]; [|reflexivity].
  destruct (iloc_last _); reflexivity.
Qed.

Lemma Qsum_ge lo w : (forall q, In q w -> lo <= q) ->
  lo * inject_Z (Z.of_nat (length w)) <= Qsum w.
Proof.
  induction w as [|x w IH]; intro H.
  - change (Qsum []) with 0.
    change (inject_Z (Z.of_nat (length (@nil Q)))) with 0. lra.
  - assert (Hx : lo <= x) by (apply H; now left).
    assert (Hw : lo * inject_Z (Z.of_nat (length w)) <= Qsum w)
      by (apply IH; intros; apply H; now right).
    change (Qsum (x :: w)) with (x + Qsum w).
    assert (E : inject_Z (Z.of_nat (length (x :: w)))
                == inject_Z (Z.of_nat (length w)) + 1).
    { simpl length. rewrite Nat2Z.inj_succ. unfold Z.succ.
      rewrite inject_Z_plus. reflexivity. }
    rewrite E. lra.
Qed.

Lemma Qsum_le hi w : (forall q, In q w -> q <= hi) ->
  Qsum w <= hi * inject_Z (Z.of_nat (length w)).
Proof.
  induction w as [|x w IH]; intro H.
  - change (Qsum []) with 0.
    change (inject_Z (Z.of_nat (length (@nil Q)))) with 0. lra.
  - assert (Hx : x <= hi) by (apply H; now left).
    assert (Hw : Qsum w <= hi * inject_Z (Z.of_nat (length w)))
      by (apply IH; intros; apply H; now right).
    change (Qsum (x :: w)) with (x + Qsum w).
    assert (E : inject_Z (Z.of_nat (length (x :: w)))
                == inject_Z (Z.of_nat (length w)) + 1).
    { simpl length. rewrite Nat2Z.inj_succ. unfold Z.succ.
      rewrite inject_Z_plus. reflexivity. }
    rewrite E. lra.
Qed.

Lemma Qmean_ge lo w :
  w <> [] -> (forall q, In q w -> lo <= q) -> lo <= Qmean w.
Proof.
  intros Hn H. unfold Qmean. apply Qle_shift_div_l.
  - destruct w; [contradiction|]. unfold Qlt. simpl. lia.
  - now apply Qsum_ge.
Qed.

Lemma Qmean_le hi w :
  w <> [] -> (forall q, In q w -> q <= hi) -> Qmean w <= hi.
Proof.
  intros Hn H. unfold Qmean. apply Qle_shift_div_r.
  - destruct w; [contradiction|]. unfold Qlt. simpl. lia.
  - now apply Qsum_le.
Qed.

Lemma In_rolling n agg (s : Series) x :
  In x (rolling n agg s) ->
  x = NaN \/
  exists i w, (i < length s)%nat /\ window n s i = Some w /\ x = agg w.
Proof.
  unfold rolling. rewrite in_map_iff. intros [i [E Hi]].
  apply in_seq in Hi.
  destruct (window n s i) as [w|] eqn:W; [right|left; now symmetry].
  exists i, w. split; [lia|]. split; [exact W|now symmetry].
Qed.

Lemma window_nonempty n (s : Series) i w :
  (1 <= n)%nat -> (i < length s)%nat -> window n s i = Some w -> w <> [].
Proof.
  intros Hn Hi H. pose proof (window_length _ _ _ _ Hi H) as L.
  intro N. subst w. simpl in L. lia.
Qed.

Lemma In_rolling_mean_ge n lo (s : Series) q :
  (1 <= n)%nat ->
  (forall x, In (Fin x) s -> lo <= x) ->
  In (Fin q) (rolling_mean n s) -> lo <= q.
Proof.
  intros Hn H Hq. apply In_rolling in Hq.
  destruct Hq as [Hq|[i [w [Hi [W E]]]]]; [discriminate|].
  inversion E; subst q.
  apply Qmean_ge; [eapply window_nonempty; eauto|].
  intros x Hx. apply H. eapply window_In; eauto.
Qed.

Lemma In_rolling_mean_le n hi (s : Series) q :
  (1 <= n)%nat ->
  (forall x, In (Fin x) s -> x <= hi) ->
  In (Fin q) (rolling_mean n s) -> q <= hi.
Proof.
  intros Hn H Hq. apply In_rolling in Hq.
  destruct Hq as [Hq|[i [w [Hi [W E]]]]]; [discriminate|].
  inversion E; subst q.
  apply Qmean_le; [eapply window_nonempty; eauto|].
  intros x Hx. apply H. eapply window_In; eauto.
Qed.

Lemma In_rolling_mean_shape n (s : Series) x :
  In x (rolling_mean n s) -> x = NaN \/ exists q, x = Fin q.
Proof.
  intro H. apply In_rolling in H.
  destruct H as [H|[i [w [_ [_ E]]]]]; [now left|right].
  exists (Qmean w). exact E.
Qed.

Lemma In_rolling_std_shape sqrt n (s : Series) x :
  (forall y, 0 <= sqrt y) ->
  In x (rolling_std sqrt n s) -> x = NaN \/ exists q, x = Fin q /\ 0 <= q.
Proof.
  intros Hs H. apply In_rolling in H.
  destruct H as [H|[i [w [_ [_ E]]]]]; [now left|].
  unfold std_of in E. destruct (length w <=? 1)%nat; [now left|right].
  eexists. split; [exact E|apply Hs].
Qed.

(** The upper band never lies below a lower bound of the series. *)
Lemma upper_band_ge sqrt (series : Series) lo i :
  (forall y, 0 <= sqrt y) ->
  (forall x, In (Fin x) series -> lo <= x) ->
  (i < length series)%nat ->
  match nth i (snd (fst (bollinger sqrt series 20 2))) NaN with
  | NaN => True
  | Fin u => lo <= u
  | _ => False
  end.
Proof.
  intros Hs Hlo Hi.
  destruct (nth_bollinger sqrt series 20 2 i Hi) as [Eu _]. rewrite Eu.
  assert (Hm : In (nth i (rolling_mean 20 series) NaN) (rolling_mean 20 series))
    by (apply nth_In; now rewrite length_rolling_mean).
  assert (Hd : In (nth i (rolling_std sqrt 20 series) NaN)
                  (rolling_std sqrt 20 series))
    by (apply nth_In; now rewrite length_rolling_std).
  destruct (In_rolling_mean_shape _ _ _ Hm) as [Em|[m Em]].
  - rewrite Em. exact I.
  - rewrite Em in Hm |- *.
    assert (Hml : lo <= m)
      by (apply (In_rolling_mean_ge 20 lo series m); [lia|exact Hlo|exact Hm]).
    destruct (In_rolling_std_shape _ _ _ _ Hs Hd) as [Ed|[b [Ed Hb]]];
      rewrite Ed; simpl; [exact I|].
    lra.
Qed.

Lemma In_repeat_eq {A} (a x : A) n : In x (repeat a n) -> x = a.
Proof. intro H. exact (repeat_spec n a x H). Qed.

Lemma rule_boll_breakout_flat sqrt (df : DataFrame) c :
  (forall y, 0 <= sqrt y) ->
  col_close df = repeat (Fin c) (len df) ->
  passed (rule_boll_breakout sqrt df) = false.
Proof.
  intros Hs Hc. unfold rule_boll_breakout.
  pose proof (fun i => upper_band_ge sqrt (col_close df) c i Hs) as U.
  destruct (bollinger sqrt (col_close df) 20 2) as [[ma up] dn] eqn:EB.
  cbn [fst snd] in U.
  destruct (squeeze_of _) as [sq|]; cbn [rbind]; [|reflexivity].
  destruct (iloc_last (col_close df)) as [cl|] eqn:El; cbn [rbind];
    [|reflexivity].
  destruct (iloc_last up) as [ul|] eqn:Eu; cbn [rbind]; [|reflexivity].
  assert (Hcl : cl = Fin c).
  { apply iloc_last_In in El. rewrite Hc in El. eapply In_repeat_eq; eauto. }
  assert (Lu : length up = length (col_close df)).
  { assert (E : up = snd (fst (bollinger sqrt (col_close df) 20 2)))
      by now rewrite EB.
    rewrite E. unfold bollinger. cbn [fst snd].
    rewrite length_smap2, length_map, length_rolling_std, length_rolling_mean.
    lia. }
  pose proof (iloc_last_ok _ _ Eu) as Pu.
  rewrite iloc_last_nth in Eu by assumption.
  assert (Eul : nth (length up - 1) up NaN = ul) by congruence.
  specialize (U (length up - 1)%nat).
  rewrite Eul in U.
  assert (Hu : match ul with NaN => True | Fin u => c <= u | _ => False end).
  { apply U.
    - intros x Hx. rewrite Hc in Hx. apply In_repeat_eq in Hx.
      inversion Hx. apply Qle_refl.
    - lia. }
  subst cl. destruct ul as [| | |u]; try contradiction.
  - destruct sq; reflexivity.
  - apply Qltb_ge in Hu. unfold fgt. cbn [isnan negb flt]. rewrite Hu.
    destruct sq; reflexivity.
Qed.

Lemma In_flat_gain c n q :
  In (Fin q) (map clip_lower0 (diff (repeat (Fin c) n))) -> q <= 0.
Proof.
  rewrite in_map_iff. intros [x [Hx Hin]].
  destruct (In_nth _ _ NaN Hin) as [i [Hi E]].
  rewrite length_diff, repeat_length in Hi.
  rewrite nth_diff in E by (now rewrite repeat_length).
  rewrite nth_repeat_lt in E by assumption.
  destruct (i <? 1)%nat.
  - subst x. simpl in Hx. discriminate.
  - rewrite nth_repeat_lt in E by lia. subst x. simpl in Hx.
    destruct (Qltb (c + - c) 0); inversion Hx; lra.
Qed.

Lemma rule_rsi_reclaim_flat (df : DataFrame) c :
  col_close df = repeat (Fin c) (len df) ->
  passed (rule_rsi_reclaim df) = false.
Proof.
  intro Hc.
  destruct (len df) as [|k] eqn:E.
  - unfold rule_rsi_reclaim, iloc_last.
    assert (N : rsi (col_close df) 14 = []).
    { apply length_zero_iff_nil. rewrite length_rsi, Hc. reflexivity. }
    now rewrite N.
  - destruct (rsi_reclaim_warm df) as [r Hr]; [lia|]. rewrite Hr.
    assert (Hl : length (col_close df) = len df)
      by (unfold col_close, len; now rewrite length_map).
    pose proof (rsi_avg_loss_spec (col_close df) 14 (len df - 1)) as PL.
    assert (HG : In (nth (len df - 1) (rsi_avg_gain (col_close df) 14) NaN)
                    (rsi_avg_gain (col_close df) 14))
      by (apply nth_In; rewrite length_rsi_avg_gain; lia).
    pose proof (rsi_avg_gain_spec (col_close df) 14 (len df - 1)) as PG.
    destruct (nth (len df - 1) (rsi_avg_loss (col_close df) 14) NaN)
      as [| | |l]; try reflexivity;
      try (exfalso; apply PL; lia).
    destruct (nth (len df - 1) (rsi_avg_gain (col_close df) 14) NaN)
      as [| | |g]; try reflexivity;
      try (exfalso; apply PG; lia).
    assert (Hg : g <= 0).
    { unfold rsi_avg_gain in HG. rewrite Hc in HG.
      apply (In_rolling_mean_le 14 0 _ g) in HG; [assumption|lia|].
      apply In_flat_gain. }
    assert (Hlp : 0 < l) by (apply PL; lia).
    simpl. assert (F : Qltb l g = false) by (apply Qltb_ge; lra).
    now rewrite F.
Qed.

Lemma fold_max_In (t : list Q) x :
  In (fold_left (fun m y => if Qltb m y then y else m) t x) (x :: t).
Proof.
  revert x. induction t as [|y t IH]; intro x; simpl; [now left|].
  destruct (Qltb x y).
  - right. apply IH.
  - destruct (IH x) as [H|H]; [now left|right; now right].
Qed.

Lemma Qmax_list_In w m : Qmax_list w = Fin m -> In m w.
Proof.
  destruct w as [|x t]; simpl; [discriminate|].
  intro H. inversion H. apply fold_max_In.
Qed.

Lemma rule_obv_leads_flat (df : DataFrame) c :
  col_close df = repeat (Fin c) (len df) ->
  passed (rule_obv_leads df) = false.
Proof.
  intro Hc. unfold rule_obv_leads.
  pose proof (obv_flat_zero c (len df) (col_volume df)) as Z.
  rewrite <- Hc in Z. rewrite Forall_forall in Z.
  destruct (iloc_last (col_close df)) as [cl|]; cbn [rbind]; [|reflexivity].
  destruct (iloc_prev (rolling_max 50 (col_close df))) as [cm|];
    cbn [rbind]; [|reflexivity].
  destruct (iloc_last (obv _ _)) as [ol|] eqn:Eo; cbn [rbind]; [|reflexivity].
  destruct (iloc_prev (rolling_max 50 (obv _ _))) as [om|] eqn:Em;
    cbn [rbind]; [|reflexivity].
  assert (Hol : is_zero ol) by (apply Z; eapply iloc_last_In; eauto).
  apply iloc_prev_In in Em. unfold rolling_max in Em.
  apply In_rolling in Em.
  assert (F : fgt ol om = false).
  { destruct Em as [->|[i [w [_ [W E]]]]].
    - unfold fgt. now destruct ol.
    - destruct (Qmax_list w) as [| | |m] eqn:M; subst om;
        try (destruct w; simpl in M; discriminate).
      + unfold fgt. now destruct ol.
      + assert (Hm : is_zero (Fin m)).
        { apply Z. eapply window_In; eauto. now apply Qmax_list_In. }
        destruct ol as [| | |o]; try contradiction.
        unfold is_zero in *. simpl in *. unfold fgt. simpl.
        apply Qltb_ge. lra. }
  now rewrite F.
Qed.

Lemma rule_mcap_roc_broadcast (df : DataFrame) m n :
  mcap df = Some (repeat m n) -> passed (rule_mcap_roc df) = false.
Proof.
  intro Hm. unfold rule_mcap_roc. rewrite Hm.
  destruct (isna_all (repeat m n)) eqn:E; [reflexivity|].
  destruct (isna_all_repeat _ _ E) as [Hn _].
  rewrite pct_change_last by (now rewrite repeat_length).
  rewrite repeat_length. cbn [rbind].
  rewrite nth_repeat_lt by lia.
  destruct (n - 1 <? ROC_WINDOW)%nat.
  - replace (fdiv m NaN) with NaN by (now destruct m). reflexivity.
  - rewrite nth_repeat_lt by lia.
    destruct (self_ratio m) as [_ Hf]. cbn zeta in Hf.
    unfold passed. now rewrite Hf.
Qed.

(** X14.  A flat market gives no signal: on an enriched series whose
    close is the same number on every bar, none of the five rules
    passes and no alert is built (the square root being non-negative). *)
Theorem flat_market_no_signal sqrt fos ios s (df0 : DataFrame) (pair : Pair)
        df c :
  (forall y, 0 <= sqrt y) ->
  col_close df0 = repeat (Fin c) (len df0) ->
  enrich_with_snapshot fos df0 pair = Ok df ->
  run_rules (RULES sqrt) df [] = Ok [] /\
  aggregate sqrt ios s df = Ok None /\
  forall a, evaluate sqrt fos ios s df0 pair <> Ok (Some a).
Proof.
  intros Hs Hc He.
  destruct (enrich_ok _ _ _ _ He) as [Hcd [_ [_ [m Hm]]]].
  assert (Hc' : col_close df = repeat (Fin c) (len df)).
  { unfold col_close, len in *. now rewrite Hcd. }
  assert (Hr : run_rules (RULES sqrt) df [] = Ok []).
  { rewrite run_rules_spec. cbn [RULES filter snd].
    rewrite (rule_ema_cross_flat df c Hc').
    rewrite (rule_boll_breakout_flat sqrt df c Hs Hc').
    rewrite (rule_rsi_reclaim_flat df c Hc').
    rewrite (rule_obv_leads_flat df c Hc').
    rewrite (rule_mcap_roc_broadcast df m _ Hm).
    reflexivity. }
  assert (Ha : aggregate sqrt ios s df = Ok None).
  { unfold aggregate. rewrite Hr. reflexivity. }
  split; [exact Hr|]. split; [exact Ha|].
  intros a. unfold evaluate. rewrite He. cbn [rbind].
  destruct (guards df) as [[|]|e]; cbn [rbind]; try discriminate.
  rewrite Ha. discriminate.
Qed.

Lemma sqrt9_nonneg y : 0 <= sqrt9 y.
Proof.
  unfold sqrt9, Qle. simpl. rewrite Z.mul_1_r. apply Z.sqrt_nonneg.
Qed.

Lemma flat_market_no_signal_witness :
  run_rules (RULES sqrt9) (enriched idle_bars good_pair) [] = Ok [] /\
  aggregate sqrt9 integer_of_string (SStr "TKN") (enriched idle_bars good_pair)
  = Ok None /\
  forall a, evaluate sqrt9 decimal_of_string integer_of_string (SStr "TKN")
                     (df_of_candles idle_bars) good_pair <> Ok (Some a).
Proof.
  apply (flat_market_no_signal sqrt9 decimal_of_string integer_of_string
           (SStr "TKN") (df_of_candles idle_bars) good_pair
           (enriched idle_bars good_pair) 100).
  - apply sqrt9_nonneg.
  - reflexivity.
  - vm_compute. reflexivity.
Defined.

(* ------------------------------------------------------------------ *)
(** ** Traces of a cycle and of the main loop *)

Section Traces.

Variable sqrt : Q -> Q.
Variable fos : string -> option fnum.
Variable ios : string -> option Z.

Lemma count_app p (a b : list event) :
  count p (a ++ b) = (count p a + count p b)%nat.
Proof. unfold count. now rewrite filter_app, length_app. Qed.

(** The three shapes of the trace of one pair. *)
Lemma scan_pair_shape (w : World) (pair : Pair) :
  let ev := fst (scan_pair sqrt fos ios w pair) in
  ev = [] \/
  (exists addr, ev = [Fetch addr]) \/
  (exists addr s df0 a,
     ev = [Fetch addr; Emit a] /\
     evaluate sqrt fos ios s df0 pair = Ok (Some a) /\
     (60 <= len df0)%nat).
Proof.
  unfold scan_pair.
  destruct (symbol_of pair) as [s|e]; [|now left].
  destruct (negb (value_truthy _)); [now left|].
  destruct (get_candles w _) as [df|e]; [|right; left; now eexists].
  destruct (len df <? 60)%nat eqn:L; [right; left; now eexists|].
  apply Nat.ltb_ge in L.
  destruct (evaluate sqrt fos ios s df pair) as [[a|]|e] eqn:E; simpl.
  - right. right. eexists. exists s, df, a.
    split; [reflexivity|]. split; assumption.
  - right. left. now eexists.
  - right. left. now eexists.
Qed.

Lemma scan_pair_counts (w : World) (pair : Pair) :
  let ev := fst (scan_pair sqrt fos ios w pair) in
  (count is_emit ev <= count is_fetch ev <= 1)%nat /\
  count is_sleep ev = 0%nat.
Proof.
  destruct (scan_pair_shape w pair) as [H|[[addr H]|[addr [s [df0 [a [H _]]]]]]];
    cbn zeta; rewrite H; unfold count; simpl; lia.
Qed.

Lemma scan_pairs_counts (w : World) (pairs : list Pair) :
  let ev := fst (scan_pairs sqrt fos ios w pairs) in
  (count is_emit ev <= count is_fetch ev <= length pairs)%nat /\
  count is_sleep ev = 0%nat.
Proof.
  induction pairs as [|p rest IH]; cbn zeta in *.
  - unfold count. simpl. lia.
  - simpl scan_pairs. pose proof (scan_pair_counts w p) as Hp.
    cbn zeta in Hp.
    destruct (scan_pair sqrt fos ios w p) as [ev [[]|e]]; simpl fst in *.
    + destruct (scan_pairs sqrt fos ios w rest) as [ev' r].
      simpl fst in *. rewrite !count_app. simpl length. lia.
    + simpl length. lia.
Qed.

Lemma scan_once_counts (w : World) :
  let ev := fst (scan_once sqrt fos ios w) in
  (count is_emit ev <= count is_fetch ev <= PAIRS_PER_SCAN)%nat /\
  count is_sleep ev = 0%nat.
Proof.
  unfold scan_once.
  destruct (get_new_solana_pairs w) as [[|p ps]|e];
    try (cbn zeta; unfold count; simpl; lia).
  pose proof (scan_pairs_counts w (firstn PAIRS_PER_SCAN (p :: ps))) as H.
  cbn zeta in *. rewrite length_firstn in H. lia.
Qed.

End Traces.

(** X15.  A cycle requests the candles of at most [PAIRS_PER_SCAN]
    pairs and emits at most one alert per request, whatever the
    candidate source and the series source return. *)
Theorem cycle_requests_bounded sqrt fos ios (w : World) :
  (count is_emit (fst (scan_once sqrt fos ios w))
   <= count is_fetch (fst (scan_once sqrt fos ios w)))%nat /\
  (count is_fetch (fst (scan_once sqrt fos ios w)) <= PAIRS_PER_SCAN)%nat.
Proof.
  pose proof (scan_once_counts sqrt fos ios w) as H. cbn zeta in H. lia.
Qed.

(** X16.  [main] never stops on a failed cycle: over any sequence of
    cycles, failed or not, its trace holds exactly one sleep per
    cycle. *)
Theorem main_sleeps_once_per_cycle sqrt fos ios (cycles : list World) :
  count is_sleep (main sqrt fos ios cycles) = length cycles.
Proof.
  induction cycles as [|w rest IH]; [reflexivity|].
  cbn [main]. pose proof (scan_once_counts sqrt fos ios w) as H.
  cbn zeta in H.
  destruct (scan_once sqrt fos ios w) as [ev r]. simpl fst in H.
  rewrite !count_app.
  change (count is_sleep ([Sleep] ++ main sqrt fos ios rest))
    with (S (count is_sleep (main sqrt fos ios rest))).
  rewrite IH. simpl length.
  destruct r; unfold count in *; simpl; lia.
Qed.

(* ------------------------------------------------------------------ *)
(** ** What an emitted alert guarantees *)

Lemma int_ge_of_Qle (q : Q) (z : Z) :
  (0 <= z)%Z -> inject_Z z <= q -> (z <= Z.quot (Qnum q) (Zpos (Qden q)))%Z.
Proof.
  intros Hz H. unfold Qle in H. simpl in H.
  assert (Hn : (0 <= Qnum q)%Z) by nia.
  rewrite Z.quot_div_nonneg by lia.
  apply Z.div_le_lower_bound; lia.
Qed.

Lemma broadcast_roc_shape m n :
  (0 < n)%nat ->
  exists pc, iloc_last (pct_change ROC_WINDOW (repeat m n)) = Ok pc /\
             (fmul pc (Fin 100) = NaN \/ feq (fmul pc (Fin 100)) (Fin 0)).
Proof.
  intro Hn. rewrite pct_change_last by (now rewrite repeat_length).
  rewrite repeat_length, nth_repeat_lt by lia.
  eexists. split; [reflexivity|].
  destruct (n - 1 <? ROC_WINDOW)%nat.
  - left. now destruct m.
  - rewrite nth_repeat_lt by lia. apply self_ratio.
Qed.

Lemma hits_shape (p1 p2 p3 p4 : bool) (r1 r2 r3 r4 r5 : DataFrame -> rule_result)
      (df : DataFrame) hs :
  passed (r1 df) = p1 -> passed (r2 df) = p2 ->
  passed (r3 df) = p3 -> passed (r4 df) = p4 -> passed (r5 df) = false ->
  hs = map fst (filter (fun f : rule => passed (snd f df))
                  [ ("rule_ema_cross"%string, r1);
                    ("rule_boll_breakout"%string, r2);
                    ("rule_rsi_reclaim"%string, r3);
                    ("rule_obv_leads"%string, r4);
                    ("rule_mcap_roc"%string, r5) ]) ->
  NoDup hs /\
  incl hs ["rule_ema_cross"; "rule_boll_breakout"; "rule_rsi_reclaim";
           "rule_obv_leads"]%string.
Proof.
  intros H1 H2 H3 H4 H5 ->. cbn [filter snd]. rewrite H1, H2, H3, H4, H5.
  destruct p1, p2, p3, p4; cbn [map fst]; split;
    try (repeat constructor; simpl; intuition discriminate);
    intros x Hx; simpl in *; intuition.
Qed.

Lemma evaluate_alert_fields sqrt fos ios s (df0 : DataFrame) (pair : Pair) a :
  evaluate sqrt fos ios s df0 pair = Ok (Some a) ->
  (MIN_SIGNALS_REQUIRED <= length (hits a))%nat /\
  NoDup (hits a) /\
  incl (hits a) ["rule_ema_cross"; "rule_boll_breakout"; "rule_rsi_reclaim";
                 "rule_obv_leads"]%string /\
  (30000 <= liq a)%Z /\
  fge (vol20avg a) (Fin MIN_ABS_VOLUME_USD) = true /\
  (roc a = None \/
   exists x, roc a = Some x /\ (x = NaN \/ feq x (Fin 0))).
Proof.
  unfold evaluate.
  destruct (enrich_with_snapshot fos df0 pair) as [df|e] eqn:He;
    cbn [rbind]; [|discriminate].
  destruct (guards df) as [[|]|e] eqn:Hg; cbn [rbind]; try discriminate.
  unfold aggregate. rewrite run_rules_spec. cbn [rbind app].
  remember (map fst (filter (fun f : string * (DataFrame -> rule_result) =>
                               passed (snd f df)) (RULES sqrt)))
    as hs eqn:Ehs.
  destruct (MIN_SIGNALS_REQUIRED <=? length hs)%nat eqn:L;
    [|intro H; discriminate H].
  apply Nat.leb_le in L.
  destruct (make_alert ios s df hs) as [a'|e] eqn:Ha; cbn [rbind];
    [|discriminate].
  intro H. inversion H; subst a'. clear H.
  destruct (enrich_ok _ _ _ _ He) as [Hc [[v Hl] [[px Hv] [m Hm]]]].
  (* the guard's view of the frame *)
  unfold guards in Hg. rewrite Hv, Hl in Hg.
  destruct (iloc_last (rolling_mean 20 _)) as [vavg|e] eqn:Hav;
    cbn [rbind] in Hg; [|discriminate].
  destruct (len df0) as [|n] eqn:En; [simpl in Hg; discriminate|].
  rewrite cell_last_repeat_S in Hg. cbn [rbind] in Hg.
  assert (Hn : (0 < length (col_close df))%nat).
  { unfold col_close. rewrite length_map, Hc. unfold len in En. lia. }
  (* the alert's fields *)
  unfold make_alert in Ha.
  rewrite (iloc_last_nth _ Hn) in Ha. cbn [rbind] in Ha.
  rewrite Hv in Ha. cbn [column rbind] in Ha. rewrite Hav in Ha.
  cbn [rbind] in Ha. rewrite Hl in Ha. cbn [column rbind] in Ha.
  rewrite cell_last_repeat_S in Ha. cbn [rbind] in Ha.
  destruct v as [|q|b|str]; cbn [cell_of_scalar cell_ge] in Hg.
  - cbn [rbind] in Hg. injection Hg as Hb.
    apply andb_prop in Hb. destruct Hb as [_ Hb].
    vm_compute in Hb. discriminate.
  - cbn [rbind] in Hg. injection Hg as Hb.
    apply andb_prop in Hb. destruct Hb as [Hvol Hliq].
    cbn [cell_of_scalar int rbind] in Ha. rewrite Hm in Ha.
    cbn [column rbind] in Ha.
    assert (Hq : inject_Z 30000 <= q).
    { unfold fge, fle in Hliq. now apply Qle_bool_iff in Hliq. }
    assert (Hh : NoDup hs /\
                 incl hs ["rule_ema_cross"; "rule_boll_breakout";
                          "rule_rsi_reclaim"; "rule_obv_leads"]%string).
    { eapply (hits_shape _ _ _ _ rule_ema_cross (rule_boll_breakout sqrt)
                rule_rsi_reclaim rule_obv_leads rule_mcap_roc df hs);
        try reflexivity; [|exact Ehs].
      eapply rule_mcap_roc_broadcast; eauto. }
    destruct Hh as [Hnd Hin].
    destruct (isna_all (repeat m (S n))) eqn:Ei; cbn [rbind] in Ha.
    + inversion Ha; subst a. cbn [hits liq vol20avg roc].
      split; [exact L|]. split; [exact Hnd|]. split; [exact Hin|].
      split; [apply int_ge_of_Qle; [lia|assumption]|].
      split; [exact Hvol|]. now left.
    + destruct (broadcast_roc_shape m (S n)) as [pc [Hpc Hx]]; [lia|].
      rewrite Hpc in Ha. cbn [rbind] in Ha.
      inversion Ha; subst a. cbn [hits liq vol20avg roc].
      split; [exact L|]. split; [exact Hnd|]. split; [exact Hin|].
      split; [apply int_ge_of_Qle; [lia|assumption]|].
      split; [exact Hvol|].
      right. eexists. split; [reflexivity|exact Hx].
  - destruct b; cbn [inf_of cell_of_scalar int rbind] in Ha, Hg.
    + injection Hg as Hb. apply andb_prop in Hb. destruct Hb as [_ Hb].
      vm_compute in Hb. discriminate.
    + discriminate.
  - discriminate.
Qed.

Lemma emit_in_scan_pair sqrt fos ios (w : World) (pair : Pair) a :
  In (Emit a) (fst (scan_pair sqrt fos ios w pair)) ->
  exists s df0, evaluate sqrt fos ios s df0 pair = Ok (Some a).
Proof.
  destruct (scan_pair_shape sqrt fos ios w pair)
    as [H|[[addr H]|[addr [s [df0 [a' [H [E _]]]]]]]];
    cbn zeta in H; rewrite H; simpl.
  - contradiction.
  - intros [F|[]]. discriminate.
  - intros [F|[F|[]]]; [discriminate|]. inversion F; subst. eauto.
Qed.

Lemma emit_in_scan_pairs sqrt fos ios (w : World) (pairs : list Pair) a :
  In (Emit a) (fst (scan_pairs sqrt fos ios w pairs)) ->
  exists pair s df0,
    In pair pairs /\ evaluate sqrt fos ios s df0 pair = Ok (Some a).
Proof.
  induction pairs as [|p rest IH]; simpl; [contradiction|].
  pose proof (emit_in_scan_pair sqrt fos ios w p a) as Hp.
  destruct (scan_pair sqrt fos ios w p) as [ev [[]|e]]; simpl fst in *.
  - destruct (scan_pairs sqrt fos ios w rest) as [ev' r]. simpl fst in *.
    intro H. apply in_app_or in H. destruct H as [H|H].
    + destruct (Hp H) as [s [df0 E]]. exists p, s, df0. split; [now left|exact E].
    + destruct (IH H) as [q [s [df0 [Hin E]]]].
      exists q, s, df0. split; [now right|exact E].
  - intro H. destruct (Hp H) as [s [df0 E]].
    exists p, s, df0. split; [now left|exact E].
Qed.

(** X17.  Every alert a cycle emits names at least
    [MIN_SIGNALS_REQUIRED] distinct rules, none of them
    [rule_mcap_roc]; it reports a liquidity of at least 30000 and a
    20-bar average USD volume of at least [MIN_ABS_VOLUME_USD]; and the
    market-cap change it reports is unavailable, NaN or zero. *)
Theorem emitted_alert_meets_thresholds sqrt fos ios (w : World) a :
  In (Emit a) (fst (scan_once sqrt fos ios w)) ->
  (MIN_SIGNALS_REQUIRED <= length (hits a))%nat /\
  NoDup (hits a) /\
  incl (hits a) ["rule_ema_cross"; "rule_boll_breakout"; "rule_rsi_reclaim";
                 "rule_obv_leads"]%string /\
  (30000 <= liq a)%Z /\
  fge (vol20avg a) (Fin MIN_ABS_VOLUME_USD) = true /\
  (roc a = None \/
   exists x, roc a = Some x /\ (x = NaN \/ feq x (Fin 0))).
Proof.
  unfold scan_once.
  destruct (get_new_solana_pairs w) as [[|p ps]|e]; intro H;
    try (simpl in H; contradiction).
  change (In (Emit a)
             (fst (scan_pairs sqrt fos ios w
                     (firstn PAIRS_PER_SCAN (p :: ps))))) in H.
  apply emit_in_scan_pairs in H.
  destruct H as [pair [s [df0 [_ E]]]].
  eapply evaluate_alert_fields; eauto.
Qed.

Lemma emitted_alert_meets_thresholds_witness :
  (MIN_SIGNALS_REQUIRED <= length (hits sample_alert))%nat /\
  NoDup (hits sample_alert) /\
  incl (hits sample_alert)
       ["rule_ema_cross"; "rule_boll_breakout"; "rule_rsi_reclaim";
        "rule_obv_leads"]%string /\
  (30000 <= liq sample_alert)%Z /\
  fge (vol20avg sample_alert) (Fin MIN_ABS_VOLUME_USD) = true /\
  (roc sample_alert = None \/
   exists x, roc sample_alert = Some x /\ (x = NaN \/ feq x (Fin 0))).
Proof.
  apply (emitted_alert_meets_thresholds sqrt9 decimal_of_string
           integer_of_string calm_world sample_alert).
  vm_compute. right. left. reflexivity.
Defined.

(* ------------------------------------------------------------------ *)
(** ** Candidate source: newest first *)

Lemma insert_desc_perm (d : Pair) (l : list Pair) :
  Permutation (d :: l) (insert_desc d l).
Proof.
  induction l as [|y t IH]; simpl; [reflexivity|].
  destruct (key_ltb (created_key d) (created_key y)); [|reflexivity].
  rewrite perm_swap. now apply perm_skip.
Qed.

Lemma sort_desc_perm (data : list Pair) : Permutation data (sort_desc data).
Proof.
  induction data as [|d t IH]; simpl; [reflexivity|].
  rewrite <- insert_desc_perm. now apply perm_skip.
Qed.

Lemma created_key_num (d : Pair) :
  is_num_key (created_key d) = true -> created_key d = KNum (created_at d).
Proof.
  unfold created_at. destruct (created_key d); simpl; try discriminate.
  reflexivity.
Qed.

Lemma key_ltb_num (a b : Pair) :
  is_num_key (created_key a) = true -> is_num_key (created_key b) = true ->
  key_ltb (created_key a) (created_key b) = Qltb (created_at a) (created_at b).
Proof.
  intros Ha Hb. now rewrite (created_key_num a Ha), (created_key_num b Hb).
Qed.

Lemma insert_desc_sorted (d : Pair) (l : list Pair) :
  is_num_key (created_key d) = true -> numeric_keys l ->
  StronglySorted (fun a b => created_at b <= created_at a) l ->
  StronglySorted (fun a b => created_at b <= created_at a) (insert_desc d l).
Proof.
  intros Hd Hl Hs. induction Hs as [|y t Hs IH Hy]; simpl.
  - constructor; constructor.
  - inversion Hl as [|? ? Hyn Htn]; subst.
    rewrite (key_ltb_num d y Hd Hyn).
    destruct (Qltb (created_at d) (created_at y)) eqn:E.
    + apply Qltb_lt in E. constructor; [now apply IH|].
      apply (Permutation_Forall (insert_desc_perm d t)).
      constructor; [lra|assumption].
    + apply Qltb_ge in E. constructor.
      * constructor; assumption.
      * constructor; [assumption|].
        eapply Forall_impl; [|exact Hy]. simpl. intros z Hz. lra.
Qed.

Lemma numeric_keys_perm (a b : list Pair) :
  Permutation a b -> numeric_keys a -> numeric_keys b.
Proof. intros P H. exact (Permutation_Forall P H). Qed.

Lemma sort_desc_sorted (data : list Pair) :
  numeric_keys data ->
  StronglySorted (fun a b => created_at b <= created_at a) (sort_desc data).
Proof.
  induction data as [|d t IH]; intro H; simpl; [constructor|].
  inversion H as [|? ? Hd Ht]; subst.
  apply insert_desc_sorted; [assumption| |now apply IH].
  eapply numeric_keys_perm; [apply sort_desc_perm|assumption].
Qed.

Lemma numeric_keys_forallb (data : list Pair) :
  numeric_keys data ->
  forallb (fun d => is_number_key (created_key d)) data = true.
Proof.
  intro H. apply forallb_forall. intros d Hd.
  unfold numeric_keys in H. rewrite Forall_forall in H.
  specialize (H d Hd). now destruct (created_key d).
Qed.

Lemma sort_newest_first_numeric (data : list Pair) :
  numeric_keys data ->
  sort_newest_first data = Ok (sort_desc data).
Proof.
  intro H. unfold sort_newest_first.
  rewrite (numeric_keys_forallb _ H). simpl.
  destruct (length data <=? 1)%nat eqn:E; [|reflexivity].
  apply Nat.leb_le in E.
  destruct data as [|d [|d' t]]; simpl in *; try reflexivity. lia.
Qed.

(** X18.  When every pair's creation time is a finite number (or absent,
    which counts as 0), the candidate list comes back as a permutation
    of the response's pairs ordered newest first. *)
Theorem pairs_sorted_newest_first (data : list Pair) :
  numeric_keys data ->
  exists out,
    sort_newest_first data = Ok out /\
    Permutation data out /\
    StronglySorted (fun a b => created_at b <= created_at a) out.
Proof.
  intro H. exists (sort_desc data). split; [|split].
  - now apply sort_newest_first_numeric.
  - apply sort_desc_perm.
  - now apply sort_desc_sorted.
Qed.

Lemma pairs_sorted_newest_first_witness :
  exists out,
    sort_newest_first three_pairs = Ok out /\
    Permutation three_pairs out /\
    StronglySorted (fun a b => created_at b <= created_at a) out.
Proof.
  apply (pairs_sorted_newest_first three_pairs).
  repeat constructor.
Defined.

Lemma filter_insert_desc (t : Q) (d : Pair) (l : list Pair) :
  is_num_key (created_key d) = true -> numeric_keys l ->
  filter (fun x => Qeq_bool (created_at x) t) (insert_desc d l)
  = filter (fun x => Qeq_bool (created_at x) t) (d :: l).
Proof.
  intros Hd Hl. induction Hl as [|y r Hy Hr IH]; [reflexivity|].
  simpl insert_desc. rewrite (key_ltb_num d y Hd Hy).
  destruct (Qltb (created_at d) (created_at y)) eqn:E; [|reflexivity].
  apply Qltb_lt in E.
  cbn [filter]. rewrite IH. cbn [filter].
  destruct (Qeq_bool (created_at y) t) eqn:Ey,
           (Qeq_bool (created_at d) t) eqn:Ed; try reflexivity.
  apply Qeq_bool_iff in Ey. apply Qeq_bool_iff in Ed. lra.
Qed.

(** X19.  The sort is stable: pairs created at the same time keep the
    order in which the response listed them. *)
Theorem pairs_sort_is_stable (data : list Pair) (t : Q) :
  numeric_keys data ->
  exists out,
    sort_newest_first data = Ok out /\
    filter (fun d => Qeq_bool (created_at d) t) out
    = filter (fun d => Qeq_bool (created_at d) t) data.
Proof.
  intro H. exists (sort_desc data).
  split; [now apply sort_newest_first_numeric|].
  induction H as [|d r Hd Hr IH]; [reflexivity|].
  simpl sort_desc. rewrite filter_insert_desc.
  - cbn [filter]. now rewrite IH.
  - assumption.
  - eapply numeric_keys_perm; [apply sort_desc_perm|assumption].
Qed.

Lemma pairs_sort_is_stable_witness :
  exists out,
    sort_newest_first three_pairs = Ok out /\
    filter (fun d => Qeq_bool (created_at d) 5) out
    = filter (fun d => Qeq_bool (created_at d) 5) three_pairs.
Proof.
  apply (pairs_sort_is_stable three_pairs 5).
  repeat constructor.
Defined.

(** X20.  A single pair whose creation time is neither a number nor a
    string (null, an object) makes the sort of two or more pairs raise
    TypeError: [get_new_solana_pairs] fails and with it the cycle. *)
Theorem pairs_sort_rejects_bad_key (data : list Pair) (d : Pair) status :
  (2 <= length data)%nat ->
  In d data ->
  created_key d = KOther ->
  (status < 400)%nat ->
  sort_newest_first data = Raise TypeError /\
  get_new_solana_pairs_from (Ok (status, BodyPairs data)) = Raise TypeError.
Proof.
  intros Hn Hin Hk Hs.
  assert (E : sort_newest_first data = Raise TypeError).
  { unfold sort_newest_first.
    replace (length data <=? 1)%nat with false
      by (symmetry; apply Nat.leb_gt; lia).
    assert (F1 : forallb (fun d => is_number_key (created_key d)) data = false).
    { apply not_true_is_false. intro F.
      rewrite forallb_forall in F. specialize (F d Hin).
      rewrite Hk in F. discriminate. }
    assert (F2 : forallb (fun d => is_str_key (created_key d)) data = false).
    { apply not_true_is_false. intro F.
      rewrite forallb_forall in F. specialize (F d Hin).
      rewrite Hk in F. discriminate. }
    now rewrite F1, F2. }
  split; [exact E|].
  unfold get_new_solana_pairs_from. cbn [rbind fst snd].
  replace (400 <=? status)%nat with false
    by (symmetry; apply Nat.leb_gt; lia).
  exact E.
Qed.

Lemma pairs_sort_rejects_bad_key_witness :
  sort_newest_first [pair_created "a" 5; pair_created_null] = Raise TypeError /\
  get_new_solana_pairs_from
    (Ok (200%nat, BodyPairs [pair_created "a" 5; pair_created_null]))
  = Raise TypeError.
Proof.
  apply (pairs_sort_rejects_bad_key [pair_created "a" 5; pair_created_null]
           pair_created_null 200).
  - simpl. lia.
  - right. left. reflexivity.
  - reflexivity.
  - lia.
Defined.

(* ------------------------------------------------------------------ *)
(** ** Series source and short series *)

Lemma lastn_suffix {A} n (l : list A) :
  exists older, l = older ++ lastn n l /\
                length (lastn n l) = Nat.min n (length l).
Proof.
  unfold lastn. exists (firstn (length l - n) l). split.
  - now rewrite firstn_skipn.
  - rewrite length_skipn. lia.
Qed.

Lemma get_candles_of_response (w : World) (addr : value) r :
  http_candles w addr = read_candles r ->
  get_candles w addr = get_candles_from r.
Proof.
  intro H. unfold get_candles. rewrite H.
  unfold read_candles, get_candles_from.
  destruct r as [[status body]|e]; cbn [rbind fst snd]; [|reflexivity].
  destruct (status =? 200)%nat eqn:E; cbn [negb rbind fst snd].
  - destruct body as [| | | |[|c cs]]; cbn [rbind fst snd]; try reflexivity;
      rewrite E; reflexivity.
  - rewrite E. reflexivity.
Qed.

(** X21.  [get_candles] on a response.  On a status other than 200 it
    returns an empty frame without reading the body.  On status 200 it
    raises ValueError on a body that is not JSON and AttributeError on
    one that is not an object, returns an empty frame when [candles]
    is absent, null or empty, and otherwise a frame without enrichment
    columns that holds the last [min LOOKBACK n] candles of the
    response, in their order.  A failed request is raised as it is. *)
Theorem get_candles_keeps_recent_bars (r : result (nat * candles_body)) :
  match r with
  | Raise e => get_candles_from r = Raise e
  | Ok (status, body) =>
      if (status =? 200)%nat then
        match body with
        | CandlesInvalid => get_candles_from r = Raise ValueError
        | CandlesNotObject => get_candles_from r = Raise AttributeError
        | CandlesAbsent => get_candles_from r = Ok (df_of_candles [])
        | CandlesNull => get_candles_from r = Ok (df_of_candles [])
        | CandlesList cs =>
            exists df,
              get_candles_from r = Ok df /\
              liquidityUsd df = None /\ volumeUsd df = None /\
              mcap df = None /\
              len df = Nat.min LOOKBACK (length cs) /\
              exists older, cs = older ++ candles df
        end
      else get_candles_from r = Ok (df_of_candles [])
  end.
Proof.
  destruct r as [[status body]|e]; [|reflexivity].
  unfold get_candles_from. cbn [rbind fst snd].
  destruct (status =? 200)%nat eqn:E; cbn [negb]; [|reflexivity].
  destruct body as [| | | |cs]; try reflexivity.
  destruct (lastn_suffix LOOKBACK cs) as [older [Ho Hl]].
  destruct cs as [|c cs'].
  - exists (df_of_candles []).
    do 4 (split; [reflexivity|]).
    split; [reflexivity|]. now exists [].
  - exists (df_of_candles (lastn LOOKBACK (c :: cs'))).
    do 4 (split; [reflexivity|]).
    unfold len. cbn [candles df_of_candles].
    split; [exact Hl|]. exists older. exact Ho.
Qed.

Section ShortSeries.

Variable sqrt : Q -> Q.
Variable fos : string -> option fnum.
Variable ios : string -> option Z.

Lemma scan_pair_short (w : World) (pair : Pair) :
  (exists s, symbol_of pair = Ok s) ->
  (forall addr, exists df, get_candles w addr = Ok df /\ (len df < 60)%nat) ->
  snd (scan_pair sqrt fos ios w pair) = Ok tt /\
  count is_emit (fst (scan_pair sqrt fos ios w pair)) = 0%nat.
Proof.
  intros [s Hs] Hc. unfold scan_pair. rewrite Hs.
  destruct (negb (value_truthy _)); [split; reflexivity|].
  destruct (Hc (value_or (get pair "pairAddress" None_)
                         (get pair "address" None_))) as [df [Hd Hl]].
  rewrite Hd. apply Nat.ltb_lt in Hl. rewrite Hl. split; reflexivity.
Qed.

Lemma scan_pairs_short (w : World) (pairs : list Pair) :
  (forall p, In p pairs -> exists s, symbol_of p = Ok s) ->
  (forall addr, exists df, get_candles w addr = Ok df /\ (len df < 60)%nat) ->
  snd (scan_pairs sqrt fos ios w pairs) = Ok tt /\
  count is_emit (fst (scan_pairs sqrt fos ios w pairs)) = 0%nat.
Proof.
  intros Hs Hc. induction pairs as [|p rest IH]; [split; reflexivity|].
  simpl scan_pairs.
  destruct (scan_pair_short w p (Hs p (or_introl eq_refl)) Hc) as [H1 H2].
  destruct (scan_pair sqrt fos ios w p) as [ev r]. simpl in H1, H2. subst r.
  destruct IH as [I1 I2]; [intros q Hq; apply Hs; now right|].
  destruct (scan_pairs sqrt fos ios w rest) as [ev' r']. simpl in *.
  split; [assumption|]. rewrite count_app. lia.
Qed.

End ShortSeries.

Lemma symbol_of_ok (p : Pair) :
  (forall v, dict_get p "baseToken" <> Some (VScalar v)) ->
  exists s, symbol_of p = Ok s.
Proof.
  intro H. unfold symbol_of, get.
  destruct (dict_get p "baseToken") as [[v|d]|].
  - exfalso. now apply (H v).
  - eexists. reflexivity.
  - eexists. reflexivity.
Qed.

(** X22.  Series of fewer than 60 bars are skipped before enrichment:
    when no candidate has a [baseToken] that is not an object, a cycle
    in which the series source has fewer than 60 bars for every pair
    completes without exception and without alert, whatever liquidity,
    price and market value the snapshots carry. *)
Theorem short_series_are_skipped sqrt fos ios (w : World) pairs :
  get_new_solana_pairs w = Ok pairs ->
  (forall p v, In p pairs -> dict_get p "baseToken" <> Some (VScalar v)) ->
  (forall addr, exists df, get_candles w addr = Ok df /\ (len df < 60)%nat) ->
  snd (scan_once sqrt fos ios w) = Ok tt /\
  count is_emit (fst (scan_once sqrt fos ios w)) = 0%nat.
Proof.
  intros Hp Hs Hc. unfold scan_once. rewrite Hp.
  destruct pairs as [|p ps]; [split; reflexivity|].
  apply scan_pairs_short; [|assumption].
  intros q Hq. apply symbol_of_ok. intro v. apply Hs.
  eapply In_firstn_In; eauto.
Qed.

Lemma short_series_are_skipped_witness :
  snd (scan_once9 short_world) = Ok tt /\
  count is_emit (fst (scan_once9 short_world)) = 0%nat.
Proof.
  apply (short_series_are_skipped sqrt9 decimal_of_string integer_of_string
           short_world [bad_pair; good_pair]).
  - reflexivity.
  - intros p v [H|[H|[]]]; subst p; vm_compute; discriminate.
  - intro addr. eexists. split; [reflexivity|]. vm_compute. lia.
Defined.

(* ------------------------------------------------------------------ *)
(** ** Only the newest pairs are scanned *)

Lemma scan_pair_ext sqrt fos ios (w1 w2 : World) (pair : Pair) :
  http_candles w1 = http_candles w2 ->
  scan_pair sqrt fos ios w1 pair = scan_pair sqrt fos ios w2 pair.
Proof.
  intro H. unfold scan_pair, get_candles. now rewrite H.
Qed.

Lemma scan_pairs_ext sqrt fos ios (w1 w2 : World) (pairs : list Pair) :
  http_candles w1 = http_candles w2 ->
  scan_pairs sqrt fos ios w1 pairs = scan_pairs sqrt fos ios w2 pairs.
Proof.
  intro H. induction pairs as [|p rest IH]; [reflexivity|].
  simpl. now rewrite IH, (scan_pair_ext sqrt fos ios w1 w2 p H).
Qed.

(** X23.  Only the first [PAIRS_PER_SCAN] candidates count: whatever
    the candidate source lists after them (even a pair whose evaluation
    would raise) leaves the cycle unchanged. *)
Theorem later_candidates_are_ignored sqrt fos ios (w1 w2 : World) l extra :
  length l = PAIRS_PER_SCAN ->
  get_new_solana_pairs w1 = Ok (l ++ extra) ->
  get_new_solana_pairs w2 = Ok l ->
  http_candles w1 = http_candles w2 ->
  scan_once sqrt fos ios w1 = scan_once sqrt fos ios w2.
Proof.
  intros Hl H1 H2 Hh. unfold scan_once. rewrite H1, H2.
  destruct l as [|p ps]; [discriminate|].
  assert (E : firstn PAIRS_PER_SCAN ((p :: ps) ++ extra) = p :: ps).
  { rewrite <- Hl. rewrite firstn_app, Nat.sub_diag, firstn_O, app_nil_r.
    apply firstn_all. }
  assert (E' : firstn PAIRS_PER_SCAN (p :: ps) = p :: ps)
    by (rewrite <- Hl; apply firstn_all).
  change (scan_pairs sqrt fos ios w1
            (firstn PAIRS_PER_SCAN ((p :: ps) ++ extra))
          = scan_pairs sqrt fos ios w2 (firstn PAIRS_PER_SCAN (p :: ps))).
  rewrite E, E'. now apply scan_pairs_ext.
Qed.

Lemma later_candidates_are_ignored_witness :
  scan_once9 crowded_world = scan_once9 twenty_world.
Proof.
  apply (later_candidates_are_ignored sqrt9 decimal_of_string
           integer_of_string crowded_world twenty_world
           (repeat good_pair 20) [bad_pair]).
  - reflexivity.
  - reflexivity.
  - reflexivity.
  - reflexivity.
Defined.
